(** * Ludo online (NestJS): the game state machine, embedded and verified

    The development follows the sources file by file:
    - [Js]: the JavaScript built-ins the sources call on strings and numbers;
    - the types of [src/game/types];
    - [BoardGeneratorService] (board.generator.service.ts);
    - [GameValidatorService] (game.validator.service.ts);
    - [GameGateway] (game.gateway.ts), one function per method;
    - the theorems, one group per property of the specification.

    JavaScript numbers are modelled as [Z] (every number the game handles is
    an integer), with [None] standing for [NaN] where [parseInt] can fail.
    Strings are [string], square identifiers included: the code addresses
    squares by their textual identifier only. *)

From stdpp Require Import base option list strings gmap.
From Stdlib Require Import Ascii ZArith Lia DecimalString DecimalPos.

Set Default Proof Using "Type".

(** ** JavaScript built-ins *)

Module Js.

(** [s.startsWith(p)] *)
Fixpoint startsWith (p s : string) : bool :=
  match p, s with
  | EmptyString, _ => true
  | String a p', String b s' => if Ascii.eqb a b then startsWith p' s' else false
  | String _ _, EmptyString => false
  end.

(** [s.includes(sub)] *)
Fixpoint includes (sub s : string) : bool :=
  startsWith sub s ||
  match s with
  | EmptyString => false
  | String _ s' => includes sub s'
  end.

(** [s.split(sep)] for a one-character separator. *)
Fixpoint split (sep : ascii) (s : string) : list string :=
  match s with
  | EmptyString => [EmptyString]
  | String a s' =>
      if Ascii.eqb a sep then EmptyString :: split sep s'
      else match split sep s' with
           | h :: t => String a h :: t
           | [] => [String a EmptyString]
           end
  end.

(** [String(n)] as a template literal prints it: decimal, with a leading
    minus sign for negative integers. *)
Definition toString (n : Z) : string :=
  NilZero.string_of_int (Z.to_int n).

Definition digit (a : ascii) : option Z :=
  let n := Z.of_N (Ascii.N_of_ascii a) in
  if ((48 <=? n) && (n <=? 57))%Z then Some (n - 48)%Z else None.

(** The longest prefix of decimal digits, read as a number; [acc] is
    [None] until a first digit has been seen. *)
Fixpoint parseDigits (s : string) (acc : option Z) : option Z :=
  match s with
  | EmptyString => acc
  | String a s' =>
      match digit a with
      | Some d => parseDigits s' (Some (10 * default 0 acc + d)%Z)
      | None => acc
      end
  end.

(** [parseInt(s)]: an optional sign, then the longest decimal prefix;
    [None] is [NaN] (no digit at all, or [s] is [undefined]).  Leading
    white space and the [0x] prefix, which square identifiers never
    contain, are not modelled. *)
Definition parseInt (s : option string) : option Z :=
  match s with
  | None => None
  | Some (String "-" s') => Z.opp <$> parseDigits s' None
  | Some (String "+" s') => parseDigits s' None
  | Some s' => parseDigits s' None
  end.

(** [xs[i]] for an integer [i]: [undefined] out of range. *)
Definition at_ {A} (xs : list A) (i : Z) : option A :=
  if (i <? 0)%Z then None else xs !! Z.to_nat i.

(** [xs[i] = x] restricted to indices in range (the sources never extend
    an array by index). *)
Definition setAt {A} (xs : list A) (i : Z) (x : A) : list A :=
  if (i <? 0)%Z then xs else <[Z.to_nat i := x]> xs.

(** [xs.find(p)] *)
Definition find {A} (p : A -> bool) (xs : list A) : option A :=
  List.find p xs.

(** [xs.findIndex(p)]: [-1] when nothing matches. *)
Fixpoint findIndex {A} (p : A -> bool) (xs : list A) : Z :=
  match xs with
  | [] => (-1)%Z
  | x :: xs' =>
      if p x then 0%Z
      else let r := findIndex p xs' in
           if (r <? 0)%Z then (-1)%Z else (r + 1)%Z
  end.

(** [xs.some(p)], [xs.every(p)] *)
Definition some {A} (p : A -> bool) (xs : list A) : bool := existsb p xs.
Definition every {A} (p : A -> bool) (xs : list A) : bool := forallb p xs.

End Js.

(** ** Types (src/game/types) *)

(** Modelled from the spec: [types/colors.ts] is not among the sources.  The
    specification fixes four colour enumerants and the sources use [colors],
    the array of all of them in enumeration order, and print a colour inside
    square identifiers.  The names and their order are a choice of this
    model; no theorem depends on them beyond the four being distinct. *)
Inductive ColorEnum := RED | GREEN | YELLOW | BLUE.

#[global] Instance ColorEnum_eq_dec : EqDecision ColorEnum.
Proof. solve_decision. Defined.

Definition colors : list ColorEnum := [RED; GREEN; YELLOW; BLUE].

(** The string a colour prints as in a template literal. *)
Definition colorText (c : ColorEnum) : string :=
  match c with
  | RED => "red" | GREEN => "green" | YELLOW => "yellow" | BLUE => "blue"
  end.

Definition colorEqb (a b : ColorEnum) : bool := bool_decide (a = b).

(** [a === b] on values that may be [null]. *)
Definition optColorEqb (a b : option ColorEnum) : bool := bool_decide (a = b).

(** [ColorSquare<T>]: one array of [T] per colour. *)
Module ColorSquare.
Record t (T : Type) := mk { red : list T; green : list T; yellow : list T; blue : list T }.
Arguments mk {T}.
Arguments red {T}.
Arguments green {T}.
Arguments yellow {T}.
Arguments blue {T}.

Definition get {T} (m : t T) (c : ColorEnum) : list T :=
  match c with
  | RED => red m | GREEN => green m | YELLOW => yellow m | BLUE => blue m
  end.

Definition set {T} (m : t T) (c : ColorEnum) (v : list T) : t T :=
  match c with
  | RED => mk v (green m) (yellow m) (blue m)
  | GREEN => mk (red m) v (yellow m) (blue m)
  | YELLOW => mk (red m) (green m) v (blue m)
  | BLUE => mk (red m) (green m) (yellow m) v
  end.

(** The object built by [for (const color of colors) o[color] = f(color)]. *)
Definition init {T} (f : ColorEnum -> list T) : t T :=
  mk (f RED) (f GREEN) (f YELLOW) (f BLUE).
End ColorSquare.

(** game.events.enum.ts *)
Inductive SubscribeEventsEnum :=
  | CREATE_GAME | JOIN_GAME | CHOOSE_COLOR | ROLL_DICE | ROLL_RESULT
  | MOVED_PAWN | MOVE_INITIAL | MOVE_ROAD | MOVE_FINAL.

#[global] Instance SubscribeEventsEnum_eq_dec : EqDecision SubscribeEventsEnum.
Proof. solve_decision. Defined.

(** Modelled from the spec: [types/animation-type.ts] is not among the
    sources; the gateway uses these three display states of a grouping
    marker (added, flagged removed, settled). *)
Inductive AnimationTypeEnum := ADDED | REMOVED | ANIMATED.

#[global] Instance AnimationTypeEnum_eq_dec : EqDecision AnimationTypeEnum.
Proof. solve_decision. Defined.

(** Modelled from the spec: [types/pawn-square-position.ts] is not among the
    sources; the gateway names the four corners. *)
Inductive PawnSquarePositionEnum := TOP_LEFT | TOP_RIGHT | BOTTOM_LEFT | BOTTOM_RIGHT.

#[global] Instance PawnSquarePositionEnum_eq_dec : EqDecision PawnSquarePositionEnum.
Proof. solve_decision. Defined.

(** A road cell.  The three flags are optional properties that are only
    ever set to [true] and only tested for truthiness: absent is [false]. *)
Module Square.
Record t := mk { id : string; color : ColorEnum;
                 safeZone : bool; exit : bool; entrance : bool }.
End Square.

Module FinalSquare.
Record t := mk { id : string }.
End FinalSquare.

Module InitialSquare.
Record t := mk { id : string }.
End InitialSquare.

(** types/pawn.ts.  [endReached] is optional and only tested for
    truthiness: absent is [false].  [action] is [undefined] or a pair. *)
Module Pawn.
Record t := mk { color : ColorEnum; index : Z; squareId : string;
                 endReached : bool;
                 action : option (SubscribeEventsEnum * Z) }.

Definition withSquareId (p : t) (s : string) : t :=
  mk (color p) (index p) s (endReached p) (action p).
Definition withEndReached (p : t) (b : bool) : t :=
  mk (color p) (index p) (squareId p) b (action p).
Definition withAction (p : t) (a : option (SubscribeEventsEnum * Z)) : t :=
  mk (color p) (index p) (squareId p) (endReached p) a.
End Pawn.

(** The last-move descriptor [board.movePawn]. *)
Module MovePawn.
Record t := mk { color : ColorEnum; index : Z; startingSquareId : string;
                 squaresIds : list string;
                 smash : option (ColorEnum * Z) }.
End MovePawn.

Module MitosisIdentifier.
Record t := mk { color : ColorEnum; index : Z;
                 position : option PawnSquarePositionEnum;
                 type : AnimationTypeEnum }.
End MitosisIdentifier.

Module KaryogamyIdentifier.
Record t := mk { color : ColorEnum; id : Z;
                 type : AnimationTypeEnum; isMain : bool }.
End KaryogamyIdentifier.

Module Board.
Record t := mk {
  finalZone : ColorSquare.t FinalSquare.t;
  initialZone : ColorSquare.t InitialSquare.t;
  road : list Square.t;
  pawns : ColorSquare.t Pawn.t;
  movePawn : option MovePawn.t;
  karyogamy : gmap string (list KaryogamyIdentifier.t);
  mitosis : gmap string (list MitosisIdentifier.t) }.
End Board.

Module Dice.
Record t := mk { count : Z; result : Z; ableToRoll : bool; rollAnimation : bool }.
End Dice.

Module Player.
Record t := mk { socketId : string; color : option ColorEnum }.
End Player.

(** The three winners slots, keys [1], [2], [3]; [None] is [null]. *)
Module Winners.
Record t := mk { first : option ColorEnum; second : option ColorEnum;
                 third : option ColorEnum }.

(** [Object.values(winners)]: integer keys come in ascending order. *)
Definition values (w : t) : list (option ColorEnum) := [first w; second w; third w].
End Winners.

Module Game.
Record t := mk { id : string; players : list Player.t; board : Board.t;
                 current : string; dice : Dice.t; winners : Winners.t }.
End Game.

(** ** board.generator.service.ts *)

Module BoardGeneratorService.

(** The indices [0 .. n-1] of a counting [for] loop. *)
Definition range (n : nat) : list Z := Z.of_nat <$> seq 0 n.

Definition generateInitialZone : ColorSquare.t InitialSquare.t :=
  ColorSquare.init (fun color =>
    (fun i => InitialSquare.mk ("initial-" +:+ colorText color +:+ "-" +:+ Js.toString i))
      <$> range 4).

Definition generateFinalZone : ColorSquare.t FinalSquare.t :=
  ColorSquare.init (fun color =>
    (fun i => FinalSquare.mk ("final-" +:+ colorText color +:+ "-" +:+ Js.toString i))
      <$> range 6).

Definition generateColorRoad (color : ColorEnum) (colorIndex : Z) : list Square.t :=
  let initialIndex := (colorIndex * 13)%Z in
  (fun i =>
     Square.mk ("road-" +:+ Js.toString (initialIndex + i)) color
               ((i =? 3)%Z || (i =? 8)%Z) (i =? 6)%Z (i =? 8)%Z)
    <$> range 13.

(** [colors.flatMap((color, i) => generateColorRoad(color, i))] *)
Definition generateRoad : list Square.t :=
  mjoin (imap (fun i color => generateColorRoad color (Z.of_nat i)) colors).

Definition generatePawns : ColorSquare.t Pawn.t :=
  ColorSquare.init (fun color =>
    (fun i => Pawn.mk color i ("initial-" +:+ colorText color +:+ "-" +:+ Js.toString i)
                      false None)
      <$> range 4).

Definition createBoard : Board.t :=
  Board.mk generateFinalZone generateInitialZone generateRoad generatePawns
           None ∅ ∅.

End BoardGeneratorService.

(** ** Record updates

    The handlers mutate the parsed aggregate in place; the model rebuilds
    the record with one field replaced. *)

Module Upd.

Definition boardPawns (b : Board.t) (v : ColorSquare.t Pawn.t) : Board.t :=
  Board.mk (Board.finalZone b) (Board.initialZone b) (Board.road b) v
           (Board.movePawn b) (Board.karyogamy b) (Board.mitosis b).

Definition boardMovePawn (b : Board.t) (v : option MovePawn.t) : Board.t :=
  Board.mk (Board.finalZone b) (Board.initialZone b) (Board.road b) (Board.pawns b)
           v (Board.karyogamy b) (Board.mitosis b).

Definition boardKaryogamy (b : Board.t) (v : gmap string (list KaryogamyIdentifier.t)) : Board.t :=
  Board.mk (Board.finalZone b) (Board.initialZone b) (Board.road b) (Board.pawns b)
           (Board.movePawn b) v (Board.mitosis b).

Definition boardMitosis (b : Board.t) (v : gmap string (list MitosisIdentifier.t)) : Board.t :=
  Board.mk (Board.finalZone b) (Board.initialZone b) (Board.road b) (Board.pawns b)
           (Board.movePawn b) (Board.karyogamy b) v.

Definition players (g : Game.t) (v : list Player.t) : Game.t :=
  Game.mk (Game.id g) v (Game.board g) (Game.current g) (Game.dice g) (Game.winners g).

Definition board (g : Game.t) (v : Board.t) : Game.t :=
  Game.mk (Game.id g) (Game.players g) v (Game.current g) (Game.dice g) (Game.winners g).

Definition current (g : Game.t) (v : string) : Game.t :=
  Game.mk (Game.id g) (Game.players g) (Game.board g) v (Game.dice g) (Game.winners g).

Definition dice (g : Game.t) (v : Dice.t) : Game.t :=
  Game.mk (Game.id g) (Game.players g) (Game.board g) (Game.current g) v (Game.winners g).

Definition winners (g : Game.t) (v : Winners.t) : Game.t :=
  Game.mk (Game.id g) (Game.players g) (Game.board g) (Game.current g) (Game.dice g) v.

Definition pawns (g : Game.t) (v : ColorSquare.t Pawn.t) : Game.t :=
  board g (boardPawns (Game.board g) v).

Definition movePawn (g : Game.t) (v : option MovePawn.t) : Game.t :=
  board g (boardMovePawn (Game.board g) v).

Definition karyogamy (g : Game.t) (v : gmap string (list KaryogamyIdentifier.t)) : Game.t :=
  board g (boardKaryogamy (Game.board g) v).

Definition mitosis (g : Game.t) (v : gmap string (list MitosisIdentifier.t)) : Game.t :=
  board g (boardMitosis (Game.board g) v).

(** [game.board.pawns[color][k] = f(game.board.pawns[color][k])]: the
    in-place mutation of one pawn object, addressed by where it lives. *)
Definition pawnAt (g : Game.t) (color : ColorEnum) (k : nat) (f : Pawn.t -> Pawn.t) : Game.t :=
  let ps := Board.pawns (Game.board g) in
  pawns g (ColorSquare.set ps color (alter f k (ColorSquare.get ps color))).

(** [game.board.pawns[color].forEach(p => ...)] *)
Definition pawnsOf (g : Game.t) (color : ColorEnum) (f : Pawn.t -> Pawn.t) : Game.t :=
  let ps := Board.pawns (Game.board g) in
  pawns g (ColorSquare.set ps color (f <$> ColorSquare.get ps color)).

(** Mutate the first element satisfying [p], as [xs.find(p).field = v] does. *)
Fixpoint first {A} (p : A -> bool) (f : A -> A) (xs : list A) : list A :=
  match xs with
  | [] => []
  | x :: xs' => if p x then f x :: xs' else x :: first p f xs'
  end.

End Upd.

(** ** The outside world

    The key-value store holds two key families: session id to game id, and
    game id to the serialized aggregate.  [JSON.stringify] followed by
    [JSON.parse] gives back the aggregate, so the second family is modelled
    as holding the aggregate itself; expiry is not modelled.  The transport
    is the log of the [game:updated] events emitted, with their
    recipients. *)

Module World.
Record t := mk { sessions : gmap string string;
                 games : gmap string Game.t;
                 emitted : list (list string * Game.t) }.
End World.

(** What a method evaluates to: a value, a thrown exception (a [TypeError]
    on dereferencing [undefined], a [RangeError] on an invalid array
    length), or a recursion that has not returned within the call depth
    allotted to it. *)
Inductive Outcome (A : Type) :=
  | Returned (a : A)
  | Thrown
  | Unfinished.
Arguments Returned {A}.
Arguments Thrown {A}.
Arguments Unfinished {A}.

Definition bindO {A B} (m : Outcome A) (k : A -> Outcome B) : Outcome B :=
  match m with
  | Returned a => k a
  | Thrown => Thrown
  | Unfinished => Unfinished
  end.

(** Dereferencing a value that may be [undefined]. *)
Definition deref {A} (o : option A) : Outcome A :=
  match o with
  | Some a => Returned a
  | None => Thrown
  end.

#[global] Instance Outcome_ret : MRet Outcome := @Returned.
#[global] Instance Outcome_bind : MBind Outcome := fun A B k m => bindO m k.

(** What a handler sends back to the requester: nothing ([undefined]) or
    the payload [{ error }]. *)
Inductive Reply :=
  | NoReply
  | ErrorReply (error : string).

(** ** game.validator.service.ts *)

Inductive ValidGameResult :=
  | Valid (game : Game.t)
  | Invalid (error : string).

Module GameValidatorService.

Definition isPlayer (id : string) (p : Player.t) : bool :=
  String.eqb (Player.socketId p) id.

(** The key of the winners slot holding [color], printed. *)
Definition winnerKey (w : Winners.t) (color : option ColorEnum) : string :=
  if optColorEqb (Winners.first w) color then "1"
  else if optColorEqb (Winners.second w) color then "2"
  else if optColorEqb (Winners.third w) color then "3"
  else "undefined".

Definition validateGame (redis : World.t) (id : string) : ValidGameResult :=
  match World.sessions redis !! id with
  | None => Invalid "Not in game"
  | Some EmptyString => Invalid "Not in game"
  | Some gameId =>
      match World.games redis !! gameId with
      | None => Invalid "Invalid game id"
      | Some game =>
          match Js.find (isPlayer id) (Game.players game) with
          | None => Invalid "Not in game"
          | Some player =>
              let gameWinners := Winners.values (Game.winners game) in
              if Js.every (fun winner => negb (optColorEqb winner None)) gameWinners
              then Invalid "Game is already finished"
              else if bool_decide (Player.color player ≠ None)
                      && Js.some (optColorEqb (Player.color player)) gameWinners
              then Invalid ("You are already the top "
                            +:+ winnerKey (Game.winners game) (Player.color player))
              else Valid game
          end
      end
  end.

Definition validateChoosenColor (redis : World.t) (id : string)
    (color : option ColorEnum) : ValidGameResult :=
  match validateGame redis id with
  | Invalid e => Invalid e
  | Valid game =>
      match color with
      | None => Invalid "Invalid color"
      | Some _ =>
          if Js.some (fun p => optColorEqb (Player.color p) color) (Game.players game)
          then Invalid "Color already taken"
          else Valid game
      end
  end.

Definition validateDiceRoll (redis : World.t) (id : string) : ValidGameResult :=
  match validateGame redis id with
  | Invalid e => Invalid e
  | Valid game =>
      if negb (String.eqb (Game.current game) id) then Invalid "Not your turn"
      else if negb (Dice.ableToRoll (Game.dice game))
      then Invalid "Dice cannot be rolled right now"
      else if negb (length (Game.players game) =? 4) then Invalid "Not enough players"
      else Valid game
  end.

Definition validateDiceResult (redis : World.t) (id : string) : ValidGameResult :=
  match validateGame redis id with
  | Invalid e => Invalid e
  | Valid game =>
      if negb (String.eqb (Game.current game) id) then Invalid "Not your turn"
      else if negb (length (Game.players game) =? 4) then Invalid "Not enough players"
      else Valid game
  end.

(** [validateMove] returns an error result or nothing ([None]); it throws
    when the player has no colour, for then [game.board.pawns[null]] is
    [undefined]. *)
Definition validateMove (game : Game.t) (move : SubscribeEventsEnum)
    (id : string) (pawnIndex : Z) : Outcome (option string) :=
  player ← deref (Js.find (isPlayer id) (Game.players game));
  if negb (String.eqb (Player.socketId player) (Game.current game))
  then Returned (Some "Not your turn")
  else if negb (length (Game.players game) =? 4)
  then Returned (Some "Not enough players")
  else
    color ← deref (Player.color player);
    match Js.find (fun p => (Pawn.index p =? pawnIndex)%Z)
                  (ColorSquare.get (Board.pawns (Game.board game)) color) with
    | None => Returned (Some "Invalid pawn index")
    | Some pawn =>
        if bool_decide (fst <$> Pawn.action pawn = Some move)
        then Returned None
        else Returned (Some "Pawn cannot be moved")
    end.

Definition validateInitialMove (redis : World.t) (id : string) (pawnIndex : Z)
    : Outcome ValidGameResult :=
  match validateGame redis id with
  | Invalid e => Returned (Invalid e)
  | Valid game =>
      moveError ← validateMove game MOVE_INITIAL id pawnIndex;
      match moveError with
      | Some e => Returned (Invalid e)
      | None =>
          let result := Dice.result (Game.dice game) in
          if negb ((result =? 1)%Z || (result =? 6)%Z)
          then Returned (Invalid "Dice roll is neither 1 nor 6")
          else Returned (Valid game)
      end
  end.

Definition validateFinalMove (redis : World.t) (id : string) (pawnIndex : Z)
    : Outcome ValidGameResult :=
  match validateGame redis id with
  | Invalid e => Returned (Invalid e)
  | Valid game =>
      moveError ← validateMove game MOVE_FINAL id pawnIndex;
      match moveError with
      | Some e => Returned (Invalid e)
      | None =>
          player ← deref (Js.find (isPlayer id) (Game.players game));
          color ← deref (Player.color player);
          pawn ← deref (Js.find (fun p => (Pawn.index p =? pawnIndex)%Z)
                     (ColorSquare.get (Board.pawns (Game.board game)) color));
          (* 5 - NaN is NaN, and no number is greater than NaN *)
          match Js.parseInt (Js.split "-" (Pawn.squareId pawn) !! 2) with
          | Some n =>
              let squaresToFinish := (5 - n)%Z in
              if (Dice.result (Game.dice game) >? squaresToFinish)%Z
              then Returned (Invalid "Dice result is too high")
              else Returned (Valid game)
          | None => Returned (Valid game)
          end
      end
  end.

Definition validateRoadMove (redis : World.t) (id : string) (pawnIndex : Z)
    : Outcome ValidGameResult :=
  match validateGame redis id with
  | Invalid e => Returned (Invalid e)
  | Valid game =>
      moveError ← validateMove game MOVE_ROAD id pawnIndex;
      match moveError with
      | Some e => Returned (Invalid e)
      | None => Returned (Valid game)
      end
  end.

Definition validateMovedPawn (redis : World.t) (id : string) : ValidGameResult :=
  validateGame redis id.

End GameValidatorService.

(** ** game.gateway.ts *)

Module GameGateway.

Import GameValidatorService.

(** *** The two boundaries *)

(** [this.gameUpdated(game)]: one [game:updated] event to the players. *)
Definition gameUpdated (w : World.t) (game : Game.t) : World.t :=
  World.mk (World.sessions w) (World.games w)
           (World.emitted w ++ [(Player.socketId <$> Game.players game, game)]).

(** [this.saveGame(game)] *)
Definition saveGame (w : World.t) (game : Game.t) : World.t :=
  World.mk (World.sessions w) (<[Game.id game := game]> (World.games w)) (World.emitted w).

(** [this.redis.set(id, gameId)] on the session family *)
Definition setSession (w : World.t) (id gameId : string) : World.t :=
  World.mk (<[id := gameId]> (World.sessions w)) (World.games w) (World.emitted w).

(** [this.redis.del(gameId)], [this.redis.del(socketId)] *)
Definition delGame (w : World.t) (gameId : string) : World.t :=
  World.mk (World.sessions w) (delete gameId (World.games w)) (World.emitted w).

Definition delSession (w : World.t) (id : string) : World.t :=
  World.mk (delete id (World.sessions w)) (World.games w) (World.emitted w).

(** *** Private helpers *)

Definition getSquareIndex (pawn : Pawn.t) : option Z :=
  let splitId := Js.split "-" (Pawn.squareId pawn) in
  Js.parseInt (match splitId !! 2 with
               | Some s => Some s
               | None => splitId !! 1
               end).

(** The recursion has no bound of its own: [depth] is the call depth
    granted, and [Unfinished] the answer when it is used up. *)
Fixpoint getNextPlayer (depth : nat) (current : string) (players : list Player.t)
    (winners : Winners.t) : Outcome string :=
  match depth with
  | O => Unfinished
  | S depth' =>
      let playerIndex := Js.findIndex (isPlayer current) players in
      let nextIndex := if (playerIndex <? 3)%Z then (playerIndex + 1)%Z else 0%Z in
      nextPlayer ← deref (Js.at_ players nextIndex);
      if Js.some (optColorEqb (Player.color nextPlayer)) (Winners.values winners)
      then getNextPlayer depth' (Player.socketId nextPlayer) players winners
      else Returned (Player.socketId nextPlayer)
  end.

Definition getWinnerPosition (winners : Winners.t) : Z :=
  Z.of_nat (length (filter (fun w => w ≠ None) (Winners.values winners))) + 1.

(** [winners[position] = color].  The gateway computes [position] with
    [getWinnerPosition] on winners that [validateGame] found not all
    filled, so it is 1, 2 or 3 (lemma [getWinnerPosition_range]). *)
Definition setWinner (w : Winners.t) (position : Z) (color : ColorEnum) : Winners.t :=
  if (position =? 1)%Z then Winners.mk (Some color) (Winners.second w) (Winners.third w)
  else if (position =? 2)%Z then Winners.mk (Winners.first w) (Some color) (Winners.third w)
  else if (position =? 3)%Z then Winners.mk (Winners.first w) (Winners.second w) (Some color)
  else w.

Definition getPawnsOnRoad (game : Game.t) (roadId : string) : list Pawn.t :=
  color ← colors;
  filter (fun pawn => Pawn.squareId pawn = roadId)
         (ColorSquare.get (Board.pawns (Game.board game)) color).

(** The destination of a road move: a road cell or a final-lane cell. *)
Inductive RoadOrFinal :=
  | OnRoad (s : Square.t)
  | OnFinal (s : FinalSquare.t).

Definition roadId (r : RoadOrFinal) : string :=
  match r with
  | OnRoad s => Square.id s
  | OnFinal s => FinalSquare.id s
  end.

(** [(<Square>road).safeZone]: a final-lane cell has no such property. *)
Definition roadSafeZone (r : RoadOrFinal) : bool :=
  match r with
  | OnRoad s => Square.safeZone s
  | OnFinal _ => false
  end.

(** The first element satisfying [p], with its position. *)
Fixpoint findAt {A} (p : A -> bool) (xs : list A) : option (nat * A) :=
  match xs with
  | [] => None
  | x :: xs' => if p x then Some (O, x)
                else prod_map S id <$> findAt p xs'
  end.

(** The first pawn standing on [sq] among the pawns of [cs], colour by
    colour, with where it lives. *)
Fixpoint firstPawnOn (game : Game.t) (sq : string) (cs : list ColorEnum)
    : option (ColorEnum * nat * Pawn.t) :=
  match cs with
  | [] => None
  | color :: cs' =>
      match findAt (fun p => String.eqb (Pawn.squareId p) sq)
                   (ColorSquare.get (Board.pawns (Game.board game)) color) with
      | Some (k, p) => Some (color, k, p)
      | None => firstPawnOn game sq cs'
      end
  end.

(** [smashPawn] returns a pawn object, [false] or [undefined]; the caller
    only tests it for truthiness and then mutates the pawn, so the model
    returns the pawn with where it lives, or [None]. *)
Definition smashPawn (game : Game.t) (road : RoadOrFinal) (pawn : Pawn.t)
    : option (ColorEnum * nat * Pawn.t) :=
  if Js.includes "final" (roadId road) then None
  else if roadSafeZone road then None
  else if negb (length (getPawnsOnRoad game (roadId road)) =? 2) then None
  else
    let otherColors := filter (fun c => c ≠ Pawn.color pawn) colors in
    firstPawnOn game (roadId road) otherColors.

(** *** Grouping markers *)

Definition getNextPosition (mitosis : list MitosisIdentifier.t) (color : ColorEnum)
    : option PawnSquarePositionEnum :=
  let currentColorPositions :=
    m ← Js.find (fun m => colorEqb (MitosisIdentifier.color m) color) mitosis;
    MitosisIdentifier.position m in
  match currentColorPositions with
  | Some p => Some p
  | None =>
      Js.find (fun p => negb (Js.some (fun m => bool_decide (MitosisIdentifier.position m = Some p))
                                     mitosis))
              [TOP_LEFT; TOP_RIGHT; BOTTOM_LEFT; BOTTOM_RIGHT]
  end.

(** One round of the loop over [colors] in [addMitosisIfNeeded]. *)
Definition addMitosisColor (pawnsOnRoad : list Pawn.t)
    (mitosis : list MitosisIdentifier.t) (color : ColorEnum) : list MitosisIdentifier.t :=
  let pawns := filter (fun p => Pawn.color p = color) pawnsOnRoad in
  match pawns with
  | [] => mitosis
  | _ =>
      let mitosisPawns := filter (fun m => MitosisIdentifier.color m = color) mitosis in
      let pawnsToAdd :=
        filter (fun p => negb (Js.some (fun m => (MitosisIdentifier.index m =? Pawn.index p)%Z)
                                      mitosisPawns)) pawns in
      let position := getNextPosition mitosis color in
      mitosis ++ ((fun p => MitosisIdentifier.mk (Pawn.color p) (Pawn.index p) position ADDED)
                    <$> pawnsToAdd)
  end.

Definition addMitosisIfNeeded (game : Game.t) (movingPawn : Pawn.t) : Game.t :=
  let pawnsOnRoad := getPawnsOnRoad game (Pawn.squareId movingPawn) in
  match pawnsOnRoad with
  | [] | [_] => game
  | first :: _ =>
      if Js.every (fun p => colorEqb (Pawn.color p) (Pawn.color first)) pawnsOnRoad
      then game
      else
        let m := Board.mitosis (Game.board game) in
        let mitosis := default [] (m !! Pawn.squareId movingPawn) in
        Upd.mitosis game
          (<[Pawn.squareId movingPawn := foldl (addMitosisColor pawnsOnRoad) mitosis colors]> m)
  end.

Definition removeMitosisIfNeeded (game : Game.t) (pawn : Pawn.t) : Game.t :=
  match getPawnsOnRoad game (Pawn.squareId pawn) with
  | [] => game
  | _ =>
      let m := Board.mitosis (Game.board game) in
      match m !! Pawn.squareId pawn with
      | None => game
      | Some mitosis =>
          let mine (x : MitosisIdentifier.t) :=
            colorEqb (MitosisIdentifier.color x) (Pawn.color pawn)
            && (MitosisIdentifier.index x =? Pawn.index pawn)%Z in
          Upd.mitosis game
            (<[Pawn.squareId pawn :=
                 Upd.first mine
                   (fun x => MitosisIdentifier.mk (MitosisIdentifier.color x)
                               (MitosisIdentifier.index x) (MitosisIdentifier.position x) REMOVED)
                   mitosis]> m)
      end
  end.

(** The elements of [new Set(xs)], in insertion order. *)
Fixpoint setOf (xs : list ColorEnum) (seen : list ColorEnum) : list ColorEnum :=
  match xs with
  | [] => []
  | x :: xs' => if bool_decide (x ∈ seen) then setOf xs' seen
                else x :: setOf xs' (x :: seen)
  end.

Definition setMain (b : bool) (k : KaryogamyIdentifier.t) : KaryogamyIdentifier.t :=
  KaryogamyIdentifier.mk (KaryogamyIdentifier.color k) (KaryogamyIdentifier.id k)
                         (KaryogamyIdentifier.type k) b.

(** One round of the loop over the colours with a stack in
    [addKaryogamyIfNeeded]. *)
Definition addKaryogamyColor (pawnsOnRoad : list Pawn.t)
    (karyogamy : list KaryogamyIdentifier.t) (color : ColorEnum) : list KaryogamyIdentifier.t :=
  let pawns :=
    filter (fun p => Pawn.color p = color
                     ∧ negb (Js.some (fun k => (KaryogamyIdentifier.id k =? Pawn.index p)%Z
                                               && colorEqb (KaryogamyIdentifier.color k) color)
                                     karyogamy))
           pawnsOnRoad in
  match pawns with
  | [] => karyogamy
  | _ =>
      let karyogamy' :=
        karyogamy ++ ((fun p => KaryogamyIdentifier.mk (Pawn.color p) (Pawn.index p) ADDED false)
                        <$> pawns) in
      let ofColor (k : KaryogamyIdentifier.t) := colorEqb (KaryogamyIdentifier.color k) color in
      if Js.some KaryogamyIdentifier.isMain (List.filter ofColor karyogamy')
      then karyogamy'
      else Upd.first ofColor (setMain true) karyogamy'
  end.

Definition addKaryogamyIfNeeded (game : Game.t) (movingPawn : Pawn.t) : Game.t :=
  let pawnsOnRoad := getPawnsOnRoad game (Pawn.squareId movingPawn) in
  match pawnsOnRoad with
  | [] | [_] => game
  | _ =>
      let pawnsOnRoadColors := Pawn.color <$> pawnsOnRoad in
      let pawnsOnRoadWithSameColor :=
        setOf (filter (fun color =>
                         1 < length (filter (fun c => c = color) pawnsOnRoadColors))
                      pawnsOnRoadColors) [] in
      match pawnsOnRoadWithSameColor with
      | [] => game
      | _ =>
          let m := Board.karyogamy (Game.board game) in
          let karyogamy := default [] (m !! Pawn.squareId movingPawn) in
          Upd.karyogamy game
            (<[Pawn.squareId movingPawn :=
                 foldl (addKaryogamyColor pawnsOnRoad) karyogamy pawnsOnRoadWithSameColor]> m)
      end
  end.

Definition removeKaryogamyIfNeeded (game : Game.t) (pawn : Pawn.t) : Game.t :=
  match getPawnsOnRoad game (Pawn.squareId pawn) with
  | [] => game
  | _ =>
      let m := Board.karyogamy (Game.board game) in
      match m !! Pawn.squareId pawn with
      | None => game
      | Some karyogamy =>
          let mine (k : KaryogamyIdentifier.t) :=
            colorEqb (KaryogamyIdentifier.color k) (Pawn.color pawn)
            && (KaryogamyIdentifier.id k =? Pawn.index pawn)%Z in
          match Js.find mine karyogamy with
          | None => game
          | Some _ =>
              let karyogamy1 :=
                Upd.first mine
                  (fun k => KaryogamyIdentifier.mk (KaryogamyIdentifier.color k)
                              (KaryogamyIdentifier.id k) REMOVED false)
                  karyogamy in
              let staying (k : KaryogamyIdentifier.t) :=
                colorEqb (KaryogamyIdentifier.color k) (Pawn.color pawn)
                && bool_decide (KaryogamyIdentifier.type k ≠ REMOVED) in
              let karyogamyPawns := List.filter staying karyogamy1 in
              let karyogamy2 :=
                match karyogamyPawns with
                | [] => karyogamy1
                | _ => if Js.some KaryogamyIdentifier.isMain karyogamyPawns
                       then karyogamy1
                       else Upd.first staying (setMain true) karyogamy1
                end in
              Upd.karyogamy game (<[Pawn.squareId pawn := karyogamy2]> m)
          end
      end
  end.

(** [squaresIds.shift()]: the first element ([undefined] when there is
    none) and the array left behind. *)
Definition shift (xs : list string) : option string * list string :=
  match xs with
  | [] => (None, [])
  | x :: xs' => (Some x, xs')
  end.

(** A property key: [undefined] reads the property named "undefined". *)
Definition propertyKey (k : option string) : string := default "undefined" k.

Definition settleMitosis (ms : list MitosisIdentifier.t) : list MitosisIdentifier.t :=
  (fun m => MitosisIdentifier.mk (MitosisIdentifier.color m) (MitosisIdentifier.index m)
              (MitosisIdentifier.position m) ANIMATED)
    <$> filter (fun m => MitosisIdentifier.type m ≠ REMOVED) ms.

Definition settleKaryogamy (ks : list KaryogamyIdentifier.t) : list KaryogamyIdentifier.t :=
  (fun k => KaryogamyIdentifier.mk (KaryogamyIdentifier.color k) (KaryogamyIdentifier.id k)
              ANIMATED (KaryogamyIdentifier.isMain k))
    <$> filter (fun k => KaryogamyIdentifier.type k ≠ REMOVED) ks.

(** The body of the loop over the two square ids in [clearMutations]. *)
Definition clearSquare {M} (settle : list M -> list M) (m : gmap string (list M))
    (squareId : string) : gmap string (list M) :=
  match m !! squareId with
  | None => m
  | Some squareMutation => <[squareId := settle squareMutation]> m
  end.

(** [clearMutations(game, mutation)], once per marker family.  The two
    square ids visited are the one [squaresIds.shift()] takes off the
    recorded path and the moved pawn's present square. *)
Definition clearMutationsSquares (game : Game.t) (movePawn : MovePawn.t)
    : Outcome (Game.t * list string) :=
  let removedPawn :=
    Js.find (fun p => (Pawn.index p =? MovePawn.index movePawn)%Z)
            (ColorSquare.get (Board.pawns (Game.board game)) (MovePawn.color movePawn)) in
  let '(oldSquareId, rest) := shift (MovePawn.squaresIds movePawn) in
  let game' :=
    Upd.movePawn game
      (Some (MovePawn.mk (MovePawn.color movePawn) (MovePawn.index movePawn)
                         (MovePawn.startingSquareId movePawn) rest
                         (MovePawn.smash movePawn))) in
  removedPawn ← deref removedPawn;
  Returned (game', [propertyKey oldSquareId; Pawn.squareId removedPawn]).

Definition clearMutationsMitosis (game : Game.t) : Outcome Game.t :=
  match Board.movePawn (Game.board game) with
  | None => Returned game
  | Some movePawn =>
      '(game', squares) ← clearMutationsSquares game movePawn;
      Returned (Upd.mitosis game'
                  (foldl (clearSquare settleMitosis) (Board.mitosis (Game.board game')) squares))
  end.

Definition clearMutationsKaryogamy (game : Game.t) : Outcome Game.t :=
  match Board.movePawn (Game.board game) with
  | None => Returned game
  | Some movePawn =>
      '(game', squares) ← clearMutationsSquares game movePawn;
      Returned (Upd.karyogamy game'
                  (foldl (clearSquare settleKaryogamy) (Board.karyogamy (Game.board game')) squares))
  end.

(** *** The handlers

    Each handler is split as the source is: the validator's verdict first,
    then the mutation of the parsed aggregate (a function on [Game.t],
    named after the handler with suffix [Game]), then the broadcast and the
    save.  Every exception a handler can raise is raised before its first
    broadcast or store write, so [Thrown] leaves the world as it was. *)

(** The integers [from, from+1, ..., to_] a counting loop runs through. *)
Definition forRange (from to_ : Z) : list Z :=
  (fun k => (from + Z.of_nat k)%Z) <$> seq 0 (Z.to_nat (to_ - from + 1)).

(** A loop whose body can throw. *)
Fixpoint forEachO {S A} (body : S -> A -> Outcome S) (s : S) (xs : list A) : Outcome S :=
  match xs with
  | [] => Returned s
  | x :: xs' => s' ← body s x; forEachO body s' xs'
  end.

Definition createGame (w : World.t) (client : string) (uuid : string)
    : Outcome (Reply * World.t) :=
  let id := uuid in
  let game :=
    Game.mk id [Player.mk client None] BoardGeneratorService.createBoard client
            (Dice.mk 0 1 false false) (Winners.mk None None None) in
  Returned (NoReply, setSession (saveGame (gameUpdated w game) game) client id).

Definition joinGame (w : World.t) (id : string) (gameId : string)
    : Outcome (Reply * World.t) :=
  let gameJson := World.games w !! gameId in
  let oldGameId := World.sessions w !! id in
  match gameJson with
  | None => Returned (ErrorReply "Invalid game id", w)
  | Some game =>
      if (4 <=? length (Game.players game)) then Returned (ErrorReply "Game is full", w)
      else if Js.some (isPlayer id) (Game.players game)
      then Returned (ErrorReply "Already in game", w)
      else
        let game := Upd.players game (Game.players game ++ [Player.mk id None]) in
        let w1 :=
          match oldGameId with
          | None | Some EmptyString => w
          | Some oldGameId =>
              match World.games w !! oldGameId with
              | None => w
              | Some oldGame =>
                  let oldGame :=
                    Upd.players oldGame
                      (List.filter (fun p => negb (isPlayer id p)) (Game.players oldGame)) in
                  let w' := match Game.players oldGame with
                            | [] => delGame w oldGameId
                            | _ => saveGame w oldGame
                            end in
                  gameUpdated w' oldGame
              end
          end in
        Returned (NoReply, gameUpdated (saveGame (setSession w1 id gameId) game) game)
  end.

Definition chooseColorGame (game : Game.t) (id : string) (color : option ColorEnum) : Game.t :=
  let game := Upd.players game
                (Upd.first (isPlayer id) (fun p => Player.mk (Player.socketId p) color)
                           (Game.players game)) in
  let d := Game.dice game in
  Upd.dice game (Dice.mk (Dice.count d) (Dice.result d)
                         (length (Game.players game) =? 4) (Dice.rollAnimation d)).

Definition chooseColor (w : World.t) (id : string) (color : option ColorEnum)
    : Outcome (Reply * World.t) :=
  match validateChoosenColor w id color with
  | Invalid error => Returned (ErrorReply error, w)
  | Valid game =>
      let game := chooseColorGame game id color in
      Returned (NoReply, saveGame (gameUpdated w game) game)
  end.

(** [roll] is what [getRoll()] draws, a face from 1 to 6. *)
Definition rollDiceGame (game : Game.t) (roll : Z) : Game.t :=
  let d := Game.dice game in
  Upd.dice game (Dice.mk (Dice.count d + 1) roll false true).

Definition rollDice (w : World.t) (id : string) (roll : Z) : Outcome (Reply * World.t) :=
  match validateDiceRoll w id with
  | Invalid error => Returned (ErrorReply error, w)
  | Valid game =>
      let game := rollDiceGame game roll in
      Returned (NoReply, saveGame (gameUpdated w game) game)
  end.

(** The body of the loop over the player's pawns in [rollResult]. *)
Definition rollResultPawn (result : Z) (pawn : Pawn.t) : Pawn.t :=
  if Js.includes "initial" (Pawn.squareId pawn) then
    if ((result =? 1) || (result =? 6))%Z
    then Pawn.withAction pawn (Some (MOVE_INITIAL, Pawn.index pawn))
    else pawn
  else
    let squarePositionIndex := getSquareIndex pawn in
    if Js.includes "final" (Pawn.squareId pawn) then
      match squarePositionIndex with
      | Some n =>
          if (n =? 5)%Z then pawn
          else if (result <=? 5 - n)%Z
               then Pawn.withAction pawn (Some (MOVE_FINAL, Pawn.index pawn))
               else pawn
      | None => pawn
      end
    else Pawn.withAction pawn (Some (MOVE_ROAD, Pawn.index pawn)).

Definition rollResultGame (depth : nat) (game : Game.t) (id : string) : Outcome Game.t :=
  player ← deref (Js.find (isPlayer id) (Game.players game));
  color ← deref (Player.color player);
  let game := Upd.pawnsOf game color (rollResultPawn (Dice.result (Game.dice game))) in
  let pawns := ColorSquare.get (Board.pawns (Game.board game)) color in
  let d := Game.dice game in
  let game := Upd.dice game (Dice.mk (Dice.count d) (Dice.result d) (Dice.ableToRoll d) false) in
  if Js.every (fun p => bool_decide (Pawn.action p = None)) pawns then
    let game := Upd.dice game (Dice.mk 0 (Dice.result d) true false) in
    next ← getNextPlayer depth (Game.current game) (Game.players game) (Game.winners game);
    Returned (Upd.current game next)
  else Returned game.

Definition rollResult (depth : nat) (w : World.t) (id : string) : Outcome (Reply * World.t) :=
  match validateDiceResult w id with
  | Invalid error => Returned (ErrorReply error, w)
  | Valid game =>
      game ← rollResultGame depth game id;
      Returned (NoReply, saveGame (gameUpdated w game) game)
  end.

Definition clearAction (p : Pawn.t) : Pawn.t := Pawn.withAction p None.

Definition moveInitialGame (game : Game.t) (id : string) (pawnIndex : Z) : Outcome Game.t :=
  player ← deref (Js.find (isPlayer id) (Game.players game));
  color ← deref (Player.color player);
  pawn ← deref (Js.at_ (ColorSquare.get (Board.pawns (Game.board game)) color) pawnIndex);
  let startingSquareId := Pawn.squareId pawn in
  let game := Upd.pawnsOf game color clearAction in
  road ← deref (Js.find (fun r => colorEqb (Square.color r) (Pawn.color pawn) && Square.entrance r)
                        (Board.road (Game.board game)));
  let game := Upd.pawnAt game color (Z.to_nat pawnIndex)
                (fun p => Pawn.withSquareId p (Square.id road)) in
  let pawn := Pawn.withSquareId (clearAction pawn) (Square.id road) in
  let game := Upd.movePawn game
                (Some (MovePawn.mk (Pawn.color pawn) (Pawn.index pawn) startingSquareId
                                   [Pawn.squareId pawn] None)) in
  Returned (addKaryogamyIfNeeded (addMitosisIfNeeded game pawn) pawn).

Definition moveInitial (w : World.t) (id : string) (pawnIndex : Z)
    : Outcome (Reply * World.t) :=
  validation ← validateInitialMove w id pawnIndex;
  match validation with
  | Invalid error => Returned (ErrorReply error, w)
  | Valid game =>
      game ← moveInitialGame game id pawnIndex;
      Returned (NoReply, saveGame (gameUpdated w game) game)
  end.

Definition finalId (color : ColorEnum) (n : Z) : string :=
  "final-" +:+ colorText color +:+ "-" +:+ Js.toString n.

Definition initialId (color : ColorEnum) (n : Z) : string :=
  "initial-" +:+ colorText color +:+ "-" +:+ Js.toString n.

Definition moveFinalGame (game : Game.t) (id : string) (pawnIndex : Z) : Outcome Game.t :=
  player ← deref (Js.find (isPlayer id) (Game.players game));
  color ← deref (Player.color player);
  pawn ← deref (Js.at_ (ColorSquare.get (Board.pawns (Game.board game)) color) pawnIndex);
  let startingSquareId := Pawn.squareId pawn in
  let game := removeKaryogamyIfNeeded game pawn in
  (* a NaN index prints as "NaN", reads back as NaN, and [new Array(NaN)] throws *)
  currentSquareIndex ← deref (getSquareIndex pawn);
  let game := Upd.pawnsOf game color clearAction in
  let squareId := finalId (Pawn.color pawn) (currentSquareIndex + Dice.result (Game.dice game)) in
  let pawn := Pawn.withSquareId (clearAction pawn) squareId in
  newSquareIndex ← deref (getSquareIndex pawn);
  let len := (newSquareIndex - currentSquareIndex)%Z in
  if (len <? 0)%Z then Thrown
  else
    let squaresIds :=
      (fun i => finalId (Pawn.color pawn) (currentSquareIndex + i + 1)) <$> forRange 0 (len - 1) in
    let endReached := Js.includes "5" squareId in
    let game := Upd.pawnAt game color (Z.to_nat pawnIndex)
                  (fun p => Pawn.withEndReached (Pawn.withSquareId p squareId) endReached) in
    let pawn := Pawn.withEndReached pawn endReached in
    let game := Upd.movePawn game
                  (Some (MovePawn.mk (Pawn.color pawn) (Pawn.index pawn) startingSquareId
                                     squaresIds None)) in
    Returned (addKaryogamyIfNeeded game pawn).

Definition moveFinal (w : World.t) (id : string) (pawnIndex : Z)
    : Outcome (Reply * World.t) :=
  validation ← validateFinalMove w id pawnIndex;
  match validation with
  | Invalid error => Returned (ErrorReply error, w)
  | Valid game =>
      game ← moveFinalGame game id pawnIndex;
      Returned (NoReply, saveGame (gameUpdated w game) game)
  end.

(** The body shared by the two loops of [moveRoad]: the state is the
    final-lane counter and the path so far. *)
Definition roadStep (road : list Square.t) (pawn : Pawn.t) (st : Z * list string) (i : Z)
    : Outcome (Z * list string) :=
  let '(finalIndex, squaresIds) := st in
  r ← deref (Js.at_ road i);
  let finalIndex :=
    if (finalIndex >? -2)%Z || (colorEqb (Square.color r) (Pawn.color pawn) && Square.exit r)
    then (finalIndex + 1)%Z else finalIndex in
  Returned (finalIndex,
            squaresIds ++ [if (finalIndex >=? 0)%Z then finalId (Pawn.color pawn) finalIndex
                           else Square.id r]).

(** The walk of [moveRoad]: the final-lane counter reached and the path.
    With a [NaN] road index no comparison holds and neither loop runs. *)
Definition roadWalk (road : list Square.t) (pawn : Pawn.t) (result : Z)
    : Outcome (Z * list string) :=
  let roadIndex := getSquareIndex pawn in
  let lastRoadIndex := (Z.of_nat (length road) - 1)%Z in
  let finalIndex :=
    if Js.some (fun r => String.eqb (Square.id r) (Pawn.squareId pawn)
                         && colorEqb (Square.color r) (Pawn.color pawn) && Square.exit r) road
    then (-1)%Z else (-2)%Z in
  match roadIndex with
  | None => Returned (finalIndex, [])
  | Some roadIndex =>
      let targetIndex := (roadIndex + result)%Z in
      st ← forEachO (roadStep road pawn) (finalIndex, [])
                    (forRange (roadIndex + 1) (Z.min targetIndex lastRoadIndex));
      let overlay := if (targetIndex >? lastRoadIndex)%Z
                     then (targetIndex - lastRoadIndex)%Z else 0%Z in
      forEachO (roadStep road pawn) st (forRange 0 (overlay - 1))
  end.

(** The square whose id is the last of the path, looked up on the road and
    then in the mover's final zone. *)
Definition destination (board : Board.t) (pawn : Pawn.t) (squaresIds : list string)
    : option RoadOrFinal :=
  let isLast (i : string) := bool_decide (Some i = last squaresIds) in
  match Js.find (fun r => isLast (Square.id r)) (Board.road board) with
  | Some r => Some (OnRoad r)
  | None =>
      OnFinal <$> Js.find (fun r => isLast (FinalSquare.id r))
                          (ColorSquare.get (Board.finalZone board) (Pawn.color pawn))
  end.

(** [moveRoad] up to and including the recording of the move: the state
    on which [smashPawn] is called, with the destination and the moved
    pawn as it now is. *)
Definition moveRoadRelocate (game : Game.t) (id : string) (pawnIndex : Z)
    : Outcome (Game.t * RoadOrFinal * Pawn.t) :=
  player ← deref (Js.find (isPlayer id) (Game.players game));
  color ← deref (Player.color player);
  pawn ← deref (Js.at_ (ColorSquare.get (Board.pawns (Game.board game)) color) pawnIndex);
  let startingSquareId := Pawn.squareId pawn in
  let game := removeKaryogamyIfNeeded (removeMitosisIfNeeded game pawn) pawn in
  '(_, squaresIds) ← roadWalk (Board.road (Game.board game)) pawn (Dice.result (Game.dice game));
  road ← deref (destination (Game.board game) pawn squaresIds);
  let endReached := String.eqb (roadId road) (finalId (Pawn.color pawn) 5) in
  let game := Upd.pawnAt game color (Z.to_nat pawnIndex)
                (fun p => Pawn.withEndReached (Pawn.withSquareId p (roadId road)) endReached) in
  let pawn := Pawn.withEndReached (Pawn.withSquareId pawn (roadId road)) endReached in
  let game := Upd.pawnsOf game color clearAction in
  let pawn := clearAction pawn in
  let game := Upd.movePawn game
                (Some (MovePawn.mk (Pawn.color pawn) (Pawn.index pawn) startingSquareId
                                   squaresIds None)) in
  Returned (game, road, pawn).

(** The capture applied to the state [moveRoadRelocate] leaves. *)
Definition moveRoadSmash (game : Game.t) (road : RoadOrFinal) (pawn : Pawn.t) : Game.t :=
  match smashPawn game road pawn with
  | None => game
  | Some (color, k, pawnToSmash) =>
      let game := Upd.pawnAt game color k
                    (fun p => Pawn.withSquareId p
                                (initialId (Pawn.color pawnToSmash) (Pawn.index pawnToSmash))) in
      Upd.movePawn game
        ((fun m => MovePawn.mk (MovePawn.color m) (MovePawn.index m)
                     (MovePawn.startingSquareId m) (MovePawn.squaresIds m)
                     (Some (Pawn.color pawnToSmash, Pawn.index pawnToSmash)))
           <$> Board.movePawn (Game.board game))
  end.

Definition moveRoadGame (game : Game.t) (id : string) (pawnIndex : Z) : Outcome Game.t :=
  '(game, road, pawn) ← moveRoadRelocate game id pawnIndex;
  let game := moveRoadSmash game road pawn in
  Returned (addKaryogamyIfNeeded (addMitosisIfNeeded game pawn) pawn).

Definition moveRoad (w : World.t) (id : string) (pawnIndex : Z)
    : Outcome (Reply * World.t) :=
  validation ← validateRoadMove w id pawnIndex;
  match validation with
  | Invalid error => Returned (ErrorReply error, w)
  | Valid game =>
      game ← moveRoadGame game id pawnIndex;
      Returned (NoReply, saveGame (gameUpdated w game) game)
  end.

(** The destructuring [const { game, error } = validation]. *)
Definition gameOf (v : ValidGameResult) : option Game.t :=
  match v with
  | Valid game => Some game
  | Invalid _ => None
  end.

Definition errorOf (v : ValidGameResult) : option string :=
  match v with
  | Valid _ => None
  | Invalid error => Some error
  end.

(** [movedPawn] from the clearing of the markers to the turn succession;
    the boolean tells whether the game has just become terminal. *)
Definition movedPawnGame (depth : nat) (game : Game.t) (id : string)
    : Outcome (Game.t * bool) :=
  game ← clearMutationsMitosis game;
  game ← clearMutationsKaryogamy game;
  let game := Upd.movePawn game None in
  let d := Game.dice game in
  let game := Upd.dice game (Dice.mk (Dice.count d) (Dice.result d) true (Dice.rollAnimation d)) in
  player ← deref (Js.find (isPlayer id) (Game.players game));
  color ← deref (Player.color player);
  let pawns := ColorSquare.get (Board.pawns (Game.board game)) color in
  let game :=
    if Js.every Pawn.endReached pawns
    then Upd.winners game
           (setWinner (Game.winners game) (getWinnerPosition (Game.winners game)) color)
    else game in
  if Js.every (fun w => negb (optColorEqb w None)) (Winners.values (Game.winners game))
  then Returned (game, true)
  else
    let d := Game.dice game in
    if negb (Dice.result d =? 6)%Z || (Dice.count d >? 2)%Z then
      let game := Upd.dice game (Dice.mk 0 (Dice.result d) (Dice.ableToRoll d)
                                         (Dice.rollAnimation d)) in
      next ← getNextPlayer depth (Game.current game) (Game.players game) (Game.winners game);
      Returned (Upd.current game next, false)
    else Returned (game, false).

Definition movedPawn (depth : nat) (w : World.t) (id : string) : Outcome (Reply * World.t) :=
  let validation := validateMovedPawn w id in
  let game := gameOf validation in
  let error := errorOf validation in
  if negb (bool_decide (Some id = Game.current <$> game)) then Returned (NoReply, w)
  else
    match error with
    | Some error => Returned (ErrorReply error, w)
    | None =>
        game ← deref game;
        '(game, terminal) ← movedPawnGame depth game id;
        if (terminal : bool)
        then Returned (NoReply,
                       foldl delSession (delGame (gameUpdated w game) (Game.id game))
                             (Player.socketId <$> Game.players game))
        else Returned (NoReply, saveGame (gameUpdated w game) game)
    end.

(** [handleDisconnect] resolves to what [Promise.all] gives, which nobody
    reads: only its effects on the store and the transport are modelled. *)
Definition handleDisconnect (w : World.t) (id : string) : World.t :=
  match World.sessions w !! id with
  | None | Some EmptyString => w
  | Some gameId =>
      let w := delSession w id in
      match World.games w !! gameId with
      | None => w
      | Some game =>
          if (length (Game.players game) =? 1)%nat then delGame w gameId
          else
            let game :=
              Upd.players game
                (List.filter (fun p => negb (isPlayer id p)) (Game.players game)) in
            gameUpdated (saveGame w game) game
      end
  end.

(** The inbound events a session can send, each with what the server
    draws for it (the identifier of a new game, the face of the dice). *)
Inductive Inbound :=
  | CreateGame (uuid : string)
  | JoinGame (gameId : string)
  | ChooseColor (color : option ColorEnum)
  | RollDice (roll : Z)
  | RollResult
  | MoveInitial (pawnIndex : Z)
  | MoveFinal (pawnIndex : Z)
  | MoveRoad (pawnIndex : Z)
  | MovedPawn.

(** The routing of [@SubscribeMessage]. *)
Definition handle (depth : nat) (w : World.t) (id : string) (m : Inbound)
    : Outcome (Reply * World.t) :=
  match m with
  | CreateGame uuid => createGame w id uuid
  | JoinGame gameId => joinGame w id gameId
  | ChooseColor color => chooseColor w id color
  | RollDice roll => rollDice w id roll
  | RollResult => rollResult depth w id
  | MoveInitial pawnIndex => moveInitial w id pawnIndex
  | MoveFinal pawnIndex => moveFinal w id pawnIndex
  | MoveRoad pawnIndex => moveRoad w id pawnIndex
  | MovedPawn => movedPawn depth w id
  end.

End GameGateway.

Import BoardGeneratorService GameValidatorService GameGateway.

Local Open Scope Z_scope.

(** * Board topology *)

(** The position of a colour in the enumeration [colors]. *)
Definition colorIndex (c : ColorEnum) : Z :=
  Js.findIndex (colorEqb c) colors.

Definition roadSquareId (n : Z) : string := "road-" +:+ Js.toString n.

(** A counting loop visits exactly the integers of its interval. *)
Lemma elem_of_forRange (from to_ i : Z) :
  i ∈ forRange from to_ ↔ (from ≤ i ≤ to_)%Z.
Proof.
  unfold forRange. rewrite list_elem_of_fmap. split.
  - intros (k & -> & Hk). apply elem_of_seq in Hk. lia.
  - intros Hi. exists (Z.to_nat (i - from)). split; [lia|].
    apply elem_of_seq. lia.
Qed.

Lemma forallb_forRange (P : Z -> bool) (from to_ : Z) :
  forallb P (forRange from to_) = true ->
  forall i, (from ≤ i ≤ to_)%Z -> P i = true.
Proof.
  intros H i Hi. rewrite forallb_forall in H. apply H.
  apply list_elem_of_In, elem_of_forRange, Hi.
Qed.

Lemma forall_colors (P : ColorEnum -> bool) :
  forallb P colors = true -> forall c, P c = true.
Proof.
  intros H c. rewrite forallb_forall in H. apply H.
  destruct c; simpl; tauto.
Qed.

#[global] Instance Square_eq_dec : EqDecision Square.t.
Proof. solve_decision. Defined.

#[global] Instance FinalSquare_eq_dec : EqDecision FinalSquare.t.
Proof. solve_decision. Defined.

#[global] Instance InitialSquare_eq_dec : EqDecision InitialSquare.t.
Proof. solve_decision. Defined.

#[global] Instance Pawn_eq_dec : EqDecision Pawn.t.
Proof. solve_decision. Defined.

(** What the generator puts at local offset [i] of the segment of [c]. *)
Definition segmentSquare (c : ColorEnum) (i : Z) : Square.t :=
  Square.mk (roadSquareId (13 * colorIndex c + i)) c
            (bool_decide (i = 3 ∨ i = 8)) (bool_decide (i = 6)) (bool_decide (i = 8)).

Definition segmentCheck (c : ColorEnum) (i : Z) : bool :=
  bool_decide (Js.at_ generateRoad (13 * colorIndex c + i) = Some (segmentSquare c i)).

Lemma generateRoad_segments :
  forallb (fun c => forallb (segmentCheck c) (forRange 0 12)) colors = true.
Proof. vm_compute. reflexivity. Qed.

(** C3.  The generated board has a road of 52 cells, made of four
    13-cell segments, one per colour in enumeration order; the cell at
    local offset [i] of the segment of colour [c] is [road-(13k+i)] for the
    k-th colour, is a safe zone exactly at offsets 3 and 8, the colour's
    exit exactly at offset 6 and its entrance exactly at offset 8; each
    colour has the 4 initial cells [initial-c-0..3], the 6 final cells
    [final-c-0..5], and 4 pawns, pawn [i] standing on [initial-c-i] with no
    pending action.  Generation takes no input, so it is deterministic. *)
Theorem createBoard_layout :
  length (Board.road createBoard) = 52%nat
  ∧ (forall c i, (0 ≤ i < 13)%Z ->
       Js.at_ (Board.road createBoard) (13 * colorIndex c + i)
       = Some (Square.mk (roadSquareId (13 * colorIndex c + i)) c
                         (bool_decide (i = 3 ∨ i = 8)) (bool_decide (i = 6))
                         (bool_decide (i = 8))))
  ∧ (forall c, InitialSquare.id <$> ColorSquare.get (Board.initialZone createBoard) c
               = initialId c <$> [0; 1; 2; 3]%Z)
  ∧ (forall c, FinalSquare.id <$> ColorSquare.get (Board.finalZone createBoard) c
               = finalId c <$> [0; 1; 2; 3; 4; 5]%Z)
  ∧ (forall c, ColorSquare.get (Board.pawns createBoard) c
               = (fun i => Pawn.mk c i (initialId c i) false None) <$> [0; 1; 2; 3]%Z)
  ∧ Board.movePawn createBoard = None
  ∧ Board.mitosis createBoard = ∅
  ∧ Board.karyogamy createBoard = ∅.
Proof.
  split; [reflexivity|]. split.
  - intros c i Hi.
    pose proof (forall_colors _ generateRoad_segments c) as Hc. simpl in Hc.
    apply (forallb_forRange _ 0 12) with (i := i) in Hc; [|lia].
    unfold segmentCheck in Hc. apply bool_decide_eq_true in Hc. exact Hc.
  - repeat split; try (intros c; destruct c; reflexivity).
Qed.

(** The segment property at one cell: red's exit. *)
Lemma createBoard_layout_witness :
  Js.at_ (Board.road createBoard) (13 * colorIndex RED + 6)
  = Some (Square.mk (roadSquareId (13 * colorIndex RED + 6)) RED
                    (bool_decide (6 = 3 ∨ 6 = 8)%Z) (bool_decide (6 = 6)%Z)
                    (bool_decide (6 = 8)%Z)).
Proof.
  destruct createBoard_layout as (_ & H & _). apply (H RED 6%Z). lia.
Defined.

(** * Road moves: the path *)

#[global] Instance Outcome_eq_dec {A} `{EqDecision A} : EqDecision (Outcome A).
Proof. solve_decision. Defined.

(** The ring offset of the exit cell of colour [c] on the generated road. *)
Definition exitIndex (c : ColorEnum) : Z :=
  Js.findIndex (fun s => colorEqb (Square.color s) c && Square.exit s) generateRoad.

(** The number of forward steps that take a pawn of colour [c] from ring
    offset [r] onto its own exit cell ([0] when it stands on it). *)
Definition stepsToExit (c : ColorEnum) (r : Z) : Z := (exitIndex c - r) mod 52.

(** The cell reached by step [j] of a pawn of colour [c] leaving ring
    offset [r]: on the ring, wrapping at 52, up to and including the exit
    cell; in the lane of [c] afterwards, from index 0. *)
Definition pathCell (c : ColorEnum) (r j : Z) : string :=
  if j <=? stepsToExit c r then roadSquareId ((r + j) mod 52)
  else finalId c (j - stepsToExit c r - 1).

(** The final-lane counter after [d] steps. *)
Definition laneCounter (c : ColorEnum) (r d : Z) : Z :=
  if stepsToExit c r <=? d then d - stepsToExit c r - 1 else -2.

Definition roadPawn (c : ColorEnum) (r : Z) : Pawn.t :=
  Pawn.mk c 0 (roadSquareId r) false None.

Definition walkCheck (c : ColorEnum) (r d : Z) : bool :=
  bool_decide (roadWalk generateRoad (roadPawn c r) d
               = Returned (laneCounter c r d, pathCell c r <$> forRange 1 d)).

Definition onRoad (r : RoadOrFinal) : bool :=
  match r with
  | OnRoad _ => true
  | OnFinal _ => false
  end.

Definition destinationCheck (c : ColorEnum) (r d : Z) : bool :=
  match destination createBoard (roadPawn c r) (pathCell c r <$> forRange 1 d) with
  | Some sq => String.eqb (roadId sq) (pathCell c r d)
               && bool_decide (onRoad sq = (d <=? stepsToExit c r))
  | None => false
  end.

Lemma roadWalk_exhaustive :
  forallb (fun c => forallb (fun r => forallb (fun d => walkCheck c r d && destinationCheck c r d)
                                              (forRange 1 6))
                            (forRange 0 51)) colors = true.
Proof. vm_compute. reflexivity. Qed.

Lemma roadWalk_only_reads (road : list Square.t) (pawn : Pawn.t) (d : Z) :
  roadWalk road pawn d
  = roadWalk road (Pawn.mk (Pawn.color pawn) 0 (Pawn.squareId pawn) false None) d.
Proof. destruct pawn; reflexivity. Qed.

Lemma destination_only_reads (b : Board.t) (pawn : Pawn.t) (path : list string) :
  destination b pawn path
  = destination (Board.mk (Board.finalZone b) generateInitialZone (Board.road b)
                          generatePawns None ∅ ∅)
                (Pawn.mk (Pawn.color pawn) 0 (Pawn.squareId pawn) false None) path.
Proof. destruct pawn, b; reflexivity. Qed.

Section RoadWalk.
Variables (pawn : Pawn.t) (r d : Z).
Hypothesis on_ring : Pawn.squareId pawn = roadSquareId r.
Hypothesis r_range : 0 ≤ r ≤ 51.
Hypothesis d_range : 1 ≤ d ≤ 6.

Let c := Pawn.color pawn.

Lemma checks_hold : walkCheck c r d && destinationCheck c r d = true.
Proof using r_range d_range.
  pose proof (forall_colors _ roadWalk_exhaustive c) as H. cbv beta in H.
  apply (forallb_forRange _ 0 51 H r) in r_range as H'.
  exact (forallb_forRange _ 1 6 H' d d_range).
Qed.

Lemma roadWalk_generated :
  roadWalk generateRoad pawn d
  = Returned (laneCounter c r d, pathCell c r <$> forRange 1 d).
Proof using on_ring r_range d_range.
  pose proof checks_hold as H. apply andb_true_iff in H as [H _].
  apply bool_decide_eq_true in H.
  rewrite roadWalk_only_reads, on_ring. exact H.
Qed.

Lemma destination_generated (b : Board.t) :
  Board.road b = generateRoad ->
  Board.finalZone b = generateFinalZone ->
  exists sq, destination b pawn (pathCell c r <$> forRange 1 d) = Some sq
             ∧ roadId sq = pathCell c r d
             ∧ onRoad sq = (d <=? stepsToExit c r).
Proof using on_ring r_range d_range.
  intros Hroad Hfinal.
  pose proof checks_hold as H. apply andb_true_iff in H as [_ H].
  unfold destinationCheck in H.
  rewrite destination_only_reads, Hroad, Hfinal, on_ring.
  change (Board.mk generateFinalZone generateInitialZone generateRoad generatePawns None ∅ ∅)
    with createBoard.
  fold c. unfold roadPawn in H.
  destruct (destination createBoard _ _) as [sq|]; [|discriminate].
  apply andb_true_iff in H as [H1 H2].
  apply String.eqb_eq in H1. apply bool_decide_eq_true in H2. eauto.
Qed.

Lemma stepsToExit_nonneg : 0 ≤ stepsToExit c r < 52.
Proof using Type. unfold stepsToExit. apply Z.mod_pos_bound. lia. Qed.

Lemma length_path : Z.of_nat (length (pathCell c r <$> forRange 1 d)) = d.
Proof using d_range.
  rewrite length_fmap. unfold forRange. rewrite length_fmap, length_seq. lia.
Qed.

Lemma lookup_path (j : Z) :
  1 ≤ j ≤ d -> Js.at_ (pathCell c r <$> forRange 1 d) (j - 1) = Some (pathCell c r j).
Proof using d_range.
  intros Hj. unfold Js.at_. destruct (Z.ltb_spec (j - 1) 0); [lia|].
  rewrite list_lookup_fmap. unfold forRange. rewrite list_lookup_fmap.
  rewrite lookup_seq_lt by lia. simpl. f_equal. f_equal. lia.
Qed.

Lemma last_path : last (pathCell c r <$> forRange 1 d) = Some (pathCell c r d).
Proof using d_range.
  rewrite last_lookup. pose proof (lookup_path d ltac:(lia)) as H.
  unfold Js.at_ in H. destruct (Z.ltb_spec (d - 1) 0); [lia|].
  rewrite <- H. f_equal. rewrite length_fmap. unfold forRange.
  rewrite length_fmap, length_seq. lia.
Qed.

Lemma pathCell_valid (j : Z) :
  1 ≤ j ≤ d ->
  (exists n, 0 ≤ n ≤ 51 ∧ pathCell c r j = roadSquareId n)
  ∨ (exists n, 0 ≤ n ≤ 5 ∧ pathCell c r j = finalId c n).
Proof using d_range.
  intros Hj. pose proof stepsToExit_nonneg as Hs. unfold pathCell.
  destruct (Z.leb_spec j (stepsToExit c r)).
  - left. exists ((r + j) mod 52). split; [|reflexivity].
    pose proof (Z.mod_pos_bound (r + j) 52). lia.
  - right. exists (j - stepsToExit c r - 1). split; [lia|reflexivity].
Qed.

End RoadWalk.

(** C10.  On a board whose road and final zones are the generated ones,
    a road move of 1 to 6 steps from any ring cell [road-r] walks without
    reading outside the road; the final-lane counter it ends with is at
    most 5; every cell of the path is [road-n] with [0 ≤ n ≤ 51] or the
    mover's [final-<color>-n] with [0 ≤ n ≤ 5] (the lane cells carry the
    values the counter takes from 0 on, so it never passes 5 on the way);
    and the lookup of the destination, on the road and then in the mover's
    final zone, finds a square whose id is the last cell of the path. *)
Theorem roadWalk_safe (board : Board.t) (pawn : Pawn.t) (r d : Z) :
  Board.road board = generateRoad ->
  Board.finalZone board = generateFinalZone ->
  Pawn.squareId pawn = roadSquareId r ->
  0 ≤ r ≤ 51 -> 1 ≤ d ≤ 6 ->
  exists finalIndex squaresIds road,
    roadWalk (Board.road board) pawn d = Returned (finalIndex, squaresIds)
    ∧ finalIndex ≤ 5
    ∧ Forall (fun s => (exists n, 0 ≤ n ≤ 51 ∧ s = roadSquareId n)
                       ∨ (exists n, 0 ≤ n ≤ 5 ∧ s = finalId (Pawn.color pawn) n))
             squaresIds
    ∧ destination board pawn squaresIds = Some road
    ∧ last squaresIds = Some (roadId road).
Proof.
  intros Hroad Hfinal Hsq Hr Hd.
  destruct (destination_generated pawn r d Hsq Hr Hd board Hroad Hfinal)
    as (sq & Hdest & Hid & _).
  exists (laneCounter (Pawn.color pawn) r d),
         (pathCell (Pawn.color pawn) r <$> forRange 1 d), sq.
  split; [rewrite Hroad; apply roadWalk_generated; assumption|].
  split.
  { unfold laneCounter. pose proof (stepsToExit_nonneg pawn r).
    destruct (Z.leb_spec (stepsToExit (Pawn.color pawn) r) d); lia. }
  split.
  { apply Forall_fmap, Forall_forall. intros j Hj.
    apply elem_of_forRange in Hj. simpl. apply (pathCell_valid pawn r d); assumption. }
  split; [exact Hdest|].
  rewrite Hid. apply (last_path pawn r d); assumption.
Qed.

(** A blue pawn on [road-44] with a 6 on the dice, on the fresh board. *)
Lemma roadWalk_safe_witness :
  exists finalIndex squaresIds road,
    roadWalk (Board.road createBoard) (roadPawn BLUE 44) 6 = Returned (finalIndex, squaresIds)
    ∧ finalIndex ≤ 5
    ∧ Forall (fun s => (exists n, 0 ≤ n ≤ 51 ∧ s = roadSquareId n)
                       ∨ (exists n, 0 ≤ n ≤ 5 ∧ s = finalId BLUE n))
             squaresIds
    ∧ destination createBoard (roadPawn BLUE 44) squaresIds = Some road
    ∧ last squaresIds = Some (roadId road).
Proof.
  apply (roadWalk_safe createBoard (roadPawn BLUE 44) 44 6);
    [reflexivity | reflexivity | reflexivity | lia | lia].
Defined.

(** * Square identifiers: printing an index and reading it back *)

(** The value of a decimal numeral read left to right from [a]. *)
Fixpoint horner (d : Decimal.uint) (a : Z) : Z :=
  match d with
  | Decimal.Nil => a
  | Decimal.D0 d' => horner d' (10 * a + 0)
  | Decimal.D1 d' => horner d' (10 * a + 1)
  | Decimal.D2 d' => horner d' (10 * a + 2)
  | Decimal.D3 d' => horner d' (10 * a + 3)
  | Decimal.D4 d' => horner d' (10 * a + 4)
  | Decimal.D5 d' => horner d' (10 * a + 5)
  | Decimal.D6 d' => horner d' (10 * a + 6)
  | Decimal.D7 d' => horner d' (10 * a + 7)
  | Decimal.D8 d' => horner d' (10 * a + 8)
  | Decimal.D9 d' => horner d' (10 * a + 9)
  end.

Lemma horner_of_uint_acc (d : Decimal.uint) (acc : positive) :
  Z.pos (Pos.of_uint_acc d acc) = horner d (Z.pos acc).
Proof.
  revert acc. induction d; intros acc; simpl; [reflexivity|..];
    rewrite IHd; f_equal; lia.
Qed.

Lemma horner_of_uint (d : Decimal.uint) : Z.of_N (Pos.of_uint d) = horner d 0.
Proof.
  induction d; simpl; try reflexivity; try exact IHd;
    rewrite horner_of_uint_acc; reflexivity.
Qed.

Lemma horner_to_uint (p : positive) : horner (Pos.to_uint p) 0 = Z.pos p.
Proof. rewrite <- horner_of_uint, DecimalPos.Unsigned.of_to. reflexivity. Qed.

Lemma parseDigits_numeral (d : Decimal.uint) (a : Z) :
  Js.parseDigits (NilEmpty.string_of_uint d) (Some a) = Some (horner d a).
Proof.
  revert a. induction d; intros a; simpl; [reflexivity|..]; apply IHd.
Qed.

(** A printed numeral starts with a digit, holds no dash, and reads back
    as its value. *)
Lemma numeral_shape (d : Decimal.uint) :
  d ≠ Decimal.Nil ->
  exists a s, NilEmpty.string_of_uint d = String a s
              ∧ a ≠ "-"%char ∧ a ≠ "+"%char
              ∧ Js.parseDigits (String a s) None = Some (horner d 0).
Proof.
  intros Hd. destruct d; [congruence|..];
    (eexists _, _; split; [reflexivity|]; split; [discriminate|];
     split; [discriminate|]; simpl; apply parseDigits_numeral).
Qed.

Lemma numeral_no_dash (d : Decimal.uint) :
  Js.includes "-" (NilEmpty.string_of_uint d) = false.
Proof. induction d; simpl; [reflexivity|..]; exact IHd. Qed.

Lemma toString_shape (n : Z) :
  0 ≤ n ->
  Js.includes "-" (Js.toString n) = false
  ∧ exists a s, Js.toString n = String a s ∧ a ≠ "-"%char ∧ a ≠ "+"%char
                ∧ Js.parseDigits (String a s) None = Some n.
Proof.
  intros Hn. unfold Js.toString. destruct n as [|p|p]; [| |lia].
  - split; [reflexivity|]. exists "0"%char, EmptyString. repeat split; discriminate.
  - simpl. pose proof (Unsigned.to_uint_nonnil p) as Hnil.
    assert (NilZero.string_of_uint (Pos.to_uint p)
            = NilEmpty.string_of_uint (Pos.to_uint p)) as ->
      by (destruct (Pos.to_uint p); [congruence|reflexivity..]).
    split; [apply numeral_no_dash|].
    destruct (numeral_shape _ Hnil) as (a & s & -> & ? & ? & Hp).
    rewrite horner_to_uint in Hp. eauto 10.
Qed.

Lemma parseInt_toString (n : Z) : 0 ≤ n -> Js.parseInt (Some (Js.toString n)) = Some n.
Proof.
  intros Hn. destruct (toString_shape n Hn) as (_ & a & s & -> & Hm & Hp & Hv).
  rewrite <- Hv. unfold Js.parseInt.
  destruct a as [[] [] [] [] [] [] [] []]; try reflexivity; congruence.
Qed.

Lemma includes_dash_cons (a : ascii) (s : string) :
  Js.includes "-" (String a s) = Ascii.eqb "-" a || Js.includes "-" s.
Proof.
  cbn [Js.includes Js.startsWith]. destruct (Ascii.eqb "-" a); reflexivity.
Qed.

Lemma split_no_dash (s : string) :
  Js.includes "-" s = false -> Js.split "-" s = [s].
Proof.
  induction s as [|a s IH]; [reflexivity|].
  rewrite includes_dash_cons. intros [Ha Hs]%orb_false_iff.
  cbn [Js.split]. rewrite Ascii.eqb_sym, Ha, IH by exact Hs. reflexivity.
Qed.

Lemma split_dash (a b : string) :
  Js.includes "-" a = false ->
  Js.split "-" (a +:+ String "-" b) = a :: Js.split "-" b.
Proof.
  induction a as [|x a IH]; [reflexivity|].
  rewrite includes_dash_cons. intros [Hx Ha]%orb_false_iff.
  change (String x a +:+ String "-" b) with (String x (a +:+ String "-" b)).
  cbn [Js.split]. rewrite Ascii.eqb_sym, Hx, IH by exact Ha. reflexivity.
Qed.

Lemma colorText_no_dash (c : ColorEnum) : Js.includes "-" (colorText c) = false.
Proof. destruct c; reflexivity. Qed.


Lemma split_zoneId (zone : string) (c : ColorEnum) (n : Z) :
  Js.includes "-" zone = false -> 0 ≤ n ->
  Js.split "-" (zone +:+ "-" +:+ colorText c +:+ "-" +:+ Js.toString n)
  = [zone; colorText c; Js.toString n].
Proof.
  intros Hz Hn.
  change (zone +:+ "-" +:+ colorText c +:+ "-" +:+ Js.toString n)
    with (zone +:+ String "-" (colorText c +:+ String "-" (Js.toString n))).
  rewrite split_dash by exact Hz.
  rewrite split_dash by apply colorText_no_dash.
  rewrite split_no_dash by apply toString_shape, Hn. reflexivity.
Qed.

(** The index of a home-lane cell reads back. *)
Lemma getSquareIndex_finalId (pawn : Pawn.t) (c : ColorEnum) (n : Z) :
  0 ≤ n ->
  Pawn.squareId pawn = finalId c n ->
  getSquareIndex pawn = Some n.
Proof.
  intros Hn Hsq. unfold getSquareIndex, finalId in *. rewrite Hsq.
  change ("final-" +:+ colorText c +:+ "-" +:+ Js.toString n)
    with ("final" +:+ "-" +:+ colorText c +:+ "-" +:+ Js.toString n).
  rewrite split_zoneId by (reflexivity || exact Hn).
  simpl. apply parseInt_toString, Hn.
Qed.



(** * The validator: what an accepted action guarantees *)

Lemma find_isPlayer (id : string) (players : list Player.t) (player : Player.t) :
  Js.find (isPlayer id) players = Some player ->
  player ∈ players ∧ Player.socketId player = id.
Proof.
  intros H. apply find_some in H as [Hin Hp]. split.
  - apply list_elem_of_In, Hin.
  - apply String.eqb_eq, Hp.
Qed.

(** Where the game [validateGame] accepts comes from. *)
Lemma validateGame_stored (w : World.t) (id : string) (game : Game.t) :
  validateGame w id = Valid game ->
  exists gameId player,
    World.sessions w !! id = Some gameId ∧ gameId ≠ EmptyString
    ∧ World.games w !! gameId = Some game
    ∧ Js.find (isPlayer id) (Game.players game) = Some player.
Proof.
  unfold validateGame. intros H.
  destruct (World.sessions w !! id) as [gameId|] eqn:Hs; [|discriminate].
  destruct gameId as [|a gameId]; [discriminate|].
  destruct (World.games w !! String a gameId) as [g|] eqn:Hg; [|discriminate].
  destruct (Js.find (isPlayer id) (Game.players g)) as [player|] eqn:Hf; [|discriminate].
  destruct (Js.every _ _); [discriminate|].
  destruct (bool_decide _ && Js.some _ _); [discriminate|].
  injection H as <-. exists (String a gameId), player.
  repeat split; try assumption; discriminate.
Qed.

(** X2.  [validateGame] accepts only a requester whose session leads to a
    stored game that lists them as a player, that still has a free winners
    slot, and in which the requester's colour, if chosen, holds no winners
    slot; the game it hands back is the stored one. *)
Theorem validateGame_accepts (w : World.t) (id : string) (game : Game.t) :
  validateGame w id = Valid game ->
  exists gameId player,
    World.sessions w !! id = Some gameId ∧ gameId ≠ EmptyString
    ∧ World.games w !! gameId = Some game
    ∧ Js.find (isPlayer id) (Game.players game) = Some player
    ∧ None ∈ Winners.values (Game.winners game)
    ∧ (forall c, Player.color player = Some c ->
                 Some c ∉ Winners.values (Game.winners game)).
Proof.
  unfold validateGame. intros H.
  destruct (World.sessions w !! id) as [gameId|] eqn:Hs; [|discriminate].
  destruct gameId as [|a gameId]; [discriminate|].
  destruct (World.games w !! String a gameId) as [g|] eqn:Hg; [|discriminate].
  destruct (Js.find (isPlayer id) (Game.players g)) as [player|] eqn:Hf; [|discriminate].
  destruct (Js.every _ _) eqn:Hall; [discriminate|].
  destruct (bool_decide _ && Js.some _ _) eqn:Hwon; [discriminate|].
  injection H as <-. exists (String a gameId), player.
  repeat split; try assumption; try discriminate.
  - unfold Winners.values in *. destruct (Game.winners g) as [[?|] [?|] [?|]];
      simpl in *; try discriminate; apply list_elem_of_In; simpl; tauto.
  - intros c Hc Hin. rewrite Hc in Hwon.
    apply andb_false_iff in Hwon as [Hwon|Hwon].
    + apply bool_decide_eq_false in Hwon. apply Hwon. discriminate.
    + unfold Js.some in Hwon.
      assert (existsb (optColorEqb (Some c)) (Winners.values (Game.winners g)) = true)
        as Hex; [|congruence].
      apply existsb_exists. exists (Some c). split.
      * apply list_elem_of_In, Hin.
      * apply bool_decide_eq_true. reflexivity.
Qed.

(** The store after one player created a game: used by the witnesses. *)
Definition emptyWorld : World.t := World.mk ∅ ∅ [].

Definition soloWorld : World.t :=
  match createGame emptyWorld "ana" "g1" with
  | Returned (_, w) => w
  | _ => emptyWorld
  end.

Lemma validateGame_accepts_witness :
  exists gameId player,
    World.sessions soloWorld !! "ana" = Some gameId ∧ gameId ≠ EmptyString
    ∧ World.games soloWorld !! gameId
      = Some (Game.mk "g1" [Player.mk "ana" None] createBoard "ana"
                      (Dice.mk 0 1 false false) (Winners.mk None None None))
    ∧ Js.find (isPlayer "ana")
        (Game.players (Game.mk "g1" [Player.mk "ana" None] createBoard "ana"
                               (Dice.mk 0 1 false false) (Winners.mk None None None)))
      = Some player
    ∧ None ∈ Winners.values (Winners.mk None None None)
    ∧ (forall c, Player.color player = Some c ->
                 Some c ∉ Winners.values (Winners.mk None None None)).
Proof.
  apply (validateGame_accepts soloWorld "ana"
           (Game.mk "g1" [Player.mk "ana" None] createBoard "ana"
                    (Dice.mk 0 1 false false) (Winners.mk None None None))).
  vm_compute. reflexivity.
Defined.

(** The turn-consuming requests, each with the validator it goes through. *)
Inductive TurnRequest :=
  | AskRoll
  | AskRollResult
  | AskInitial (pawnIndex : Z)
  | AskFinal (pawnIndex : Z)
  | AskRoad (pawnIndex : Z).

Definition validateTurn (w : World.t) (id : string) (a : TurnRequest)
    : Outcome ValidGameResult :=
  match a with
  | AskRoll => Returned (validateDiceRoll w id)
  | AskRollResult => Returned (validateDiceResult w id)
  | AskInitial i => validateInitialMove w id i
  | AskFinal i => validateFinalMove w id i
  | AskRoad i => validateRoadMove w id i
  end.

(** The move kind a pawn-move request asks for. *)
Definition requestedMove (a : TurnRequest) : option (SubscribeEventsEnum * Z) :=
  match a with
  | AskInitial i => Some (MOVE_INITIAL, i)
  | AskFinal i => Some (MOVE_FINAL, i)
  | AskRoad i => Some (MOVE_ROAD, i)
  | _ => None
  end.

Lemma validateMove_passes (game : Game.t) (move : SubscribeEventsEnum)
    (id : string) (pawnIndex : Z) :
  validateMove game move id pawnIndex = Returned None ->
  exists player c pawn,
    Js.find (isPlayer id) (Game.players game) = Some player
    ∧ Player.socketId player = Game.current game
    ∧ length (Game.players game) = 4%nat
    ∧ Player.color player = Some c
    ∧ Js.find (fun p => Pawn.index p =? pawnIndex)
              (ColorSquare.get (Board.pawns (Game.board game)) c) = Some pawn
    ∧ fst <$> Pawn.action pawn = Some move.
Proof.
  unfold validateMove. intros H.
  destruct (Js.find (isPlayer id) (Game.players game)) as [player|] eqn:Hf; [|discriminate].
  simpl in H.
  destruct (String.eqb_spec (Player.socketId player) (Game.current game)) as [Hc|];
    [|discriminate].
  destruct (Nat.eqb_spec (length (Game.players game)) 4) as [Hl|]; [|discriminate].
  simpl in H. destruct (Player.color player) as [c|] eqn:Hcol; [|discriminate]. simpl in H.
  destruct (Js.find _ (ColorSquare.get _ c)) as [pawn|] eqn:Hp; [|discriminate].
  destruct (bool_decide (fst <$> Pawn.action pawn = Some move)) eqn:Ha; [|discriminate].
  apply bool_decide_eq_true in Ha. exists player, c, pawn. auto 10.
Qed.

Ltac validated H :=
  match type of H with
  | context [validateGame ?w ?id] =>
      let Hv := fresh "Hv" in
      destruct (validateGame w id) as [?g|?e] eqn:Hv; [|discriminate]
  end.

(** What each turn-consuming validator has checked when it answers
    [Valid]. *)
Lemma validateDiceRoll_Valid (w : World.t) (id : string) (game : Game.t) :
  validateDiceRoll w id = Valid game ->
  validateGame w id = Valid game
  ∧ Game.current game = id
  ∧ length (Game.players game) = 4%nat.
Proof.
  unfold validateDiceRoll. intros H. validated H.
  destruct (String.eqb_spec (Game.current g) id); [|discriminate]. simpl in H.
  destruct (Dice.ableToRoll (Game.dice g)); [|discriminate]. simpl in H.
  destruct (Nat.eqb_spec (length (Game.players g)) 4); [|discriminate].
  injection H as <-. auto.
Qed.

Lemma validateDiceResult_Valid (w : World.t) (id : string) (game : Game.t) :
  validateDiceResult w id = Valid game ->
  validateGame w id = Valid game
  ∧ Game.current game = id
  ∧ length (Game.players game) = 4%nat.
Proof.
  unfold validateDiceResult. intros H. validated H.
  destruct (String.eqb_spec (Game.current g) id); [|discriminate]. simpl in H.
  destruct (Nat.eqb_spec (length (Game.players g)) 4); [|discriminate].
  injection H as <-. auto.
Qed.

Lemma validateInitialMove_Valid (w : World.t) (id : string) (i : Z) (game : Game.t) :
  validateInitialMove w id i = Returned (Valid game) ->
  validateGame w id = Valid game
  ∧ Game.current game = id
  ∧ length (Game.players game) = 4%nat.
Proof.
  unfold validateInitialMove. intros H. validated H.
  destruct (validateMove g MOVE_INITIAL id i) as [[?|]| |] eqn:Hm; try discriminate.
  simpl in H. destruct (negb _); [discriminate|]. injection H as <-.
  apply validateMove_passes in Hm as (player & c & pawn & Hf & Hc & Hl & _).
  apply find_isPlayer in Hf as [_ Hid]. split; [reflexivity|]. split; congruence.
Qed.

Lemma validateFinalMove_Valid (w : World.t) (id : string) (i : Z) (game : Game.t) :
  validateFinalMove w id i = Returned (Valid game) ->
  validateGame w id = Valid game
  ∧ Game.current game = id
  ∧ length (Game.players game) = 4%nat.
Proof.
  unfold validateFinalMove. intros H. validated H.
  destruct (validateMove g MOVE_FINAL id i) as [[?|]| |] eqn:Hm; try discriminate.
  apply validateMove_passes in Hm as (player & c & pawn & Hf & Hc & Hl & Hcol & Hp & _).
  apply find_isPlayer in Hf as Hf'. destruct Hf' as [_ Hid].
  simpl in H. rewrite Hf in H. simpl in H. rewrite Hcol in H. simpl in H.
  rewrite Hp in H. simpl in H.
  assert (game = g) as ->.
  { destruct (Js.parseInt _); [destruct (_ >? _)|]; congruence. }
  split; [reflexivity|]. split; congruence.
Qed.

Lemma validateRoadMove_Valid (w : World.t) (id : string) (i : Z) (game : Game.t) :
  validateRoadMove w id i = Returned (Valid game) ->
  validateGame w id = Valid game
  ∧ Game.current game = id
  ∧ length (Game.players game) = 4%nat.
Proof.
  unfold validateRoadMove. intros H. validated H.
  destruct (validateMove g MOVE_ROAD id i) as [[?|]| |] eqn:Hm; try discriminate.
  simpl in H. injection H as <-.
  apply validateMove_passes in Hm as (player & c & pawn & Hf & Hc & Hl & _).
  apply find_isPlayer in Hf as [_ Hid]. split; [reflexivity|]. split; congruence.
Qed.

(** X3.  The turn gate.  Whichever turn-consuming validator accepts a
    request (roll, roll result, entry move, home-lane move, road move), the
    game it hands back is the one [validateGame] accepted, the requester is
    the current player, and the game has exactly 4 players. *)
Theorem turn_gate (w : World.t) (id : string) (a : TurnRequest) (game : Game.t) :
  validateTurn w id a = Returned (Valid game) ->
  validateGame w id = Valid game
  ∧ Game.current game = id
  ∧ length (Game.players game) = 4%nat.
Proof.
  destruct a as [| |i|i|i]; simpl; intros H.
  - apply validateDiceRoll_Valid. congruence.
  - apply validateDiceResult_Valid. congruence.
  - apply validateInitialMove_Valid with i, H.
  - apply validateFinalMove_Valid with i, H.
  - apply validateRoadMove_Valid with i, H.
Qed.

(** The store after three more players joined that game. *)
Definition tableWorld : World.t :=
  let join (w : World.t) (id : string) :=
    match joinGame w id "g1" with
    | Returned (_, w') => w'
    | _ => w
    end in
  join (join (join soloWorld "bob") "cy") "dee".

Definition tableGame : Game.t :=
  Game.mk "g1" [Player.mk "ana" None; Player.mk "bob" None; Player.mk "cy" None;
                Player.mk "dee" None]
          createBoard "ana" (Dice.mk 0 1 false false) (Winners.mk None None None).

Lemma turn_gate_witness :
  validateGame tableWorld "ana" = Valid tableGame
  ∧ Game.current tableGame = "ana"
  ∧ length (Game.players tableGame) = 4%nat.
Proof.
  apply (turn_gate tableWorld "ana" AskRollResult tableGame).
  vm_compute. reflexivity.
Defined.

Lemma third_of_finalId (c : ColorEnum) (n : Z) :
  0 ≤ n -> Js.parseInt (Js.split "-" (finalId c n) !! 2%nat) = Some n.
Proof.
  intros Hn. unfold finalId.
  change ("final-" +:+ colorText c +:+ "-" +:+ Js.toString n)
    with ("final" +:+ "-" +:+ colorText c +:+ "-" +:+ Js.toString n).
  rewrite split_zoneId by (reflexivity || exact Hn).
  simpl. apply parseInt_toString, Hn.
Qed.

(** X4.  An accepted pawn move names a pawn that may make it.  When the
    validator of an entry, home-lane or road move accepts, the requester
    has a colour, that colour has a pawn with the requested index, and the
    pawn's pending action is of the requested kind; moreover an accepted
    entry move comes with a dice result of 1 or 6, and an accepted
    home-lane move of a pawn on lane cell [n] with a result that does not
    pass cell 5. *)
Theorem move_gate (w : World.t) (id : string) (a : TurnRequest) (game : Game.t)
    (move : SubscribeEventsEnum) (pawnIndex : Z) :
  validateTurn w id a = Returned (Valid game) ->
  requestedMove a = Some (move, pawnIndex) ->
  exists player c pawn,
    Js.find (isPlayer id) (Game.players game) = Some player
    ∧ Player.color player = Some c
    ∧ Js.find (fun p => Pawn.index p =? pawnIndex)
              (ColorSquare.get (Board.pawns (Game.board game)) c) = Some pawn
    ∧ fst <$> Pawn.action pawn = Some move
    ∧ (move = MOVE_INITIAL ->
       Dice.result (Game.dice game) = 1 ∨ Dice.result (Game.dice game) = 6)
    ∧ (move = MOVE_FINAL ->
       forall c' n, 0 ≤ n -> Pawn.squareId pawn = finalId c' n ->
                    n + Dice.result (Game.dice game) ≤ 5).
Proof.
  destruct a as [| |i|i|i]; simpl; try discriminate;
    [unfold validateInitialMove | unfold validateFinalMove | unfold validateRoadMove];
    intros H [= <- <-]; validated H.
  - destruct (validateMove g MOVE_INITIAL id i) as [[?|]| |] eqn:Hm; try discriminate.
    simpl in H.
    destruct ((Dice.result (Game.dice g) =? 1) || (Dice.result (Game.dice g) =? 6))
      eqn:Hd; [|discriminate].
    injection H as <-.
    apply validateMove_passes in Hm as (player & c & pawn & Hf & _ & _ & Hcol & Hp & Ha).
    exists player, c, pawn. repeat split; try assumption; [|discriminate].
    intros _. apply orb_true_iff in Hd. lia.
  - destruct (validateMove g MOVE_FINAL id i) as [[?|]| |] eqn:Hm; try discriminate.
    apply validateMove_passes in Hm as (player & c & pawn & Hf & _ & _ & Hcol & Hp & Ha).
    simpl in H. rewrite Hf in H. simpl in H. rewrite Hcol in H. simpl in H.
    rewrite Hp in H. simpl in H.
    exists player, c, pawn.
    assert (game = g) as ->
      by (destruct (Js.parseInt _); [destruct (_ >? _)|]; congruence).
    repeat split; try assumption; [discriminate|].
    intros _ c' n Hn Hsq. rewrite Hsq, third_of_finalId in H by exact Hn.
    destruct (Z.gtb_spec (Dice.result (Game.dice g)) (5 - n)); [discriminate|lia].
  - destruct (validateMove g MOVE_ROAD id i) as [[?|]| |] eqn:Hm; try discriminate.
    simpl in H. injection H as <-.
    apply validateMove_passes in Hm as (player & c & pawn & Hf & _ & _ & Hcol & Hp & Ha).
    exists player, c, pawn. repeat split; try assumption; discriminate.
Qed.

(** ** Played scenarios, for the witnesses *)

(** The world after a sequence of inbound events, each sent by a session;
    an event whose handler throws leaves the world as it was. *)
Definition play (w : World.t) (events : list (string * Inbound)) : World.t :=
  foldl (fun w e => match handle 8 w e.1 e.2 with
                    | Returned (_, w') => w'
                    | _ => w
                    end) w events.

(** The game stored under [g1], the only one the scenarios create. *)
Definition stored (w : World.t) : Game.t := default tableGame (World.games w !! "g1").

(** Four players at the table, each with a colour. *)
Definition readyWorld : World.t :=
  play tableWorld [("ana", ChooseColor (Some RED)); ("bob", ChooseColor (Some GREEN));
                   ("cy", ChooseColor (Some YELLOW)); ("dee", ChooseColor (Some BLUE))].

(** Red has rolled a 6 and been told which pawns may move. *)
Definition rolledWorld : World.t :=
  play readyWorld [("ana", RollDice 6); ("ana", RollResult)].

Lemma move_gate_witness :
  exists player c pawn,
    Js.find (isPlayer "ana") (Game.players (stored rolledWorld)) = Some player
    ∧ Player.color player = Some c
    ∧ Js.find (fun p => Pawn.index p =? 0)
              (ColorSquare.get (Board.pawns (Game.board (stored rolledWorld))) c) = Some pawn
    ∧ fst <$> Pawn.action pawn = Some MOVE_INITIAL
    ∧ (MOVE_INITIAL = MOVE_INITIAL ->
       Dice.result (Game.dice (stored rolledWorld)) = 1
       ∨ Dice.result (Game.dice (stored rolledWorld)) = 6)
    ∧ (MOVE_INITIAL = MOVE_FINAL ->
       forall c' n, 0 ≤ n -> Pawn.squareId pawn = finalId c' n ->
                    n + Dice.result (Game.dice (stored rolledWorld)) ≤ 5).
Proof.
  apply (move_gate rolledWorld "ana" (AskInitial 0) (stored rolledWorld) MOVE_INITIAL 0);
    vm_compute; reflexivity.
Defined.

(** * Rejections *)

Ltac unfold_outcome :=
  unfold mbind, Outcome_bind, bindO, mret, Outcome_ret in *.

(** X5.  A request answered with an error payload changed nothing: for
    every inbound event, if the handler replies [{ error }] then the store
    is the one it started from and no [game:updated] event was emitted. *)
Theorem rejection_changes_nothing (depth : nat) (w : World.t) (id : string)
    (m : Inbound) (error : string) (w' : World.t) :
  handle depth w id m = Returned (ErrorReply error, w') -> w' = w.
Proof.
  destruct m; simpl;
    [unfold createGame | unfold joinGame | unfold chooseColor | unfold rollDice
    | unfold rollResult | unfold moveInitial | unfold moveFinal | unfold moveRoad
    | unfold movedPawn];
    unfold_outcome; intros H; repeat case_match; congruence.
Qed.

(** A second player asks to join a game that does not exist. *)
Lemma rejection_changes_nothing_witness :
  handle 8 soloWorld "bob" (JoinGame "nowhere")
  = Returned (ErrorReply "Invalid game id", soloWorld)
  ∧ soloWorld = soloWorld.
Proof.
  split; [vm_compute; reflexivity|].
  apply (rejection_changes_nothing 8 soloWorld "bob" (JoinGame "nowhere") "Invalid game id").
  vm_compute. reflexivity.
Defined.

(** X6.  [movedPawn] never replies with an error payload, and a request
    the validator rejects is dropped in silence: the handler returns
    nothing and leaves the store and the transport untouched.  The test
    [id !== game?.current] comes first and holds whenever the validator
    gave no game. *)
Theorem movedPawn_is_silent (depth : nat) (w : World.t) (id : string) :
  (forall error w', movedPawn depth w id ≠ Returned (ErrorReply error, w'))
  ∧ (forall error, validateMovedPawn w id = Invalid error ->
                   movedPawn depth w id = Returned (NoReply, w)).
Proof.
  split.
  - intros error w'. unfold movedPawn. unfold_outcome.
    destruct (validateMovedPawn w id) as [game|e]; simpl.
    + repeat case_match; congruence.
    + congruence.
  - intros error H. unfold movedPawn. rewrite H. reflexivity.
Qed.

Lemma movedPawn_is_silent_witness :
  movedPawn 8 emptyWorld "ana" = Returned (NoReply, emptyWorld).
Proof.
  apply (proj2 (movedPawn_is_silent 8 emptyWorld "ana") "Not in game").
  reflexivity.
Defined.

(** * What a move leaves alone *)

(** The aggregate [g] with the four parts of the board a move may write. *)
Definition reboard (g : Game.t) (pawns : ColorSquare.t Pawn.t) (movePawn : option MovePawn.t)
    (karyogamy : gmap string (list KaryogamyIdentifier.t))
    (mitosis : gmap string (list MitosisIdentifier.t)) : Game.t :=
  Upd.board g (Board.mk (Board.finalZone (Game.board g)) (Board.initialZone (Game.board g))
                        (Board.road (Game.board g)) pawns movePawn karyogamy mitosis).

(** [g'] is [g] up to pawns, last-move descriptor and grouping markers. *)
Definition sameTable (g g' : Game.t) : Prop :=
  exists pawns movePawn karyogamy mitosis, g' = reboard g pawns movePawn karyogamy mitosis.

Lemma sameTable_refl (g : Game.t) : sameTable g g.
Proof. destruct g as [? ? [] ? ? ?]. repeat eexists. Qed.

Lemma sameTable_trans (g1 g2 g3 : Game.t) :
  sameTable g1 g2 -> sameTable g2 g3 -> sameTable g1 g3.
Proof. intros (? & ? & ? & ? & ->) (? & ? & ? & ? & ->). repeat eexists. Qed.

Lemma sameTable_pawns g v : sameTable g (Upd.pawns g v).
Proof. destruct g as [? ? [] ? ? ?]. repeat eexists. Qed.

Lemma sameTable_movePawn g v : sameTable g (Upd.movePawn g v).
Proof. destruct g as [? ? [] ? ? ?]. repeat eexists. Qed.

Lemma sameTable_karyogamy g v : sameTable g (Upd.karyogamy g v).
Proof. destruct g as [? ? [] ? ? ?]. repeat eexists. Qed.

Lemma sameTable_mitosis g v : sameTable g (Upd.mitosis g v).
Proof. destruct g as [? ? [] ? ? ?]. repeat eexists. Qed.

Lemma sameTable_pawnAt g c k f : sameTable g (Upd.pawnAt g c k f).
Proof. apply sameTable_pawns. Qed.

Lemma sameTable_pawnsOf g c f : sameTable g (Upd.pawnsOf g c f).
Proof. apply sameTable_pawns. Qed.

(** The marker functions write their own map and nothing else. *)
Lemma addMitosisIfNeeded_writes g p :
  exists m, addMitosisIfNeeded g p = Upd.mitosis g m.
Proof.
  assert (Upd.mitosis g (Board.mitosis (Game.board g)) = g) as Hid
    by (destruct g as [? ? [] ? ? ?]; reflexivity).
  unfold addMitosisIfNeeded. repeat case_match; eauto.
Qed.

Lemma removeMitosisIfNeeded_writes g p :
  exists m, removeMitosisIfNeeded g p = Upd.mitosis g m.
Proof.
  assert (Upd.mitosis g (Board.mitosis (Game.board g)) = g) as Hid
    by (destruct g as [? ? [] ? ? ?]; reflexivity).
  unfold removeMitosisIfNeeded. repeat case_match; eauto.
Qed.

Lemma addKaryogamyIfNeeded_writes g p :
  exists m, addKaryogamyIfNeeded g p = Upd.karyogamy g m.
Proof.
  assert (Upd.karyogamy g (Board.karyogamy (Game.board g)) = g) as Hid
    by (destruct g as [? ? [] ? ? ?]; reflexivity).
  unfold addKaryogamyIfNeeded. repeat case_match; eauto.
Qed.

Lemma removeKaryogamyIfNeeded_writes g p :
  exists m, removeKaryogamyIfNeeded g p = Upd.karyogamy g m.
Proof.
  assert (Upd.karyogamy g (Board.karyogamy (Game.board g)) = g) as Hid
    by (destruct g as [? ? [] ? ? ?]; reflexivity).
  unfold removeKaryogamyIfNeeded. repeat case_match; eauto.
Qed.

Lemma sameTable_addMitosis g p : sameTable g (addMitosisIfNeeded g p).
Proof. destruct (addMitosisIfNeeded_writes g p) as [m ->]. apply sameTable_mitosis. Qed.

Lemma sameTable_removeMitosis g p : sameTable g (removeMitosisIfNeeded g p).
Proof. destruct (removeMitosisIfNeeded_writes g p) as [m ->]. apply sameTable_mitosis. Qed.

Lemma sameTable_addKaryogamy g p : sameTable g (addKaryogamyIfNeeded g p).
Proof. destruct (addKaryogamyIfNeeded_writes g p) as [m ->]. apply sameTable_karyogamy. Qed.

Lemma sameTable_removeKaryogamy g p : sameTable g (removeKaryogamyIfNeeded g p).
Proof. destruct (removeKaryogamyIfNeeded_writes g p) as [m ->]. apply sameTable_karyogamy. Qed.

Create HintDb table discriminated.
#[global] Hint Resolve sameTable_refl sameTable_pawns sameTable_movePawn
  sameTable_karyogamy sameTable_mitosis sameTable_pawnAt sameTable_pawnsOf
  sameTable_addMitosis sameTable_removeMitosis sameTable_addKaryogamy
  sameTable_removeKaryogamy : table.

Ltac table_step :=
  match goal with
  | |- sameTable ?g ?g => apply sameTable_refl
  | |- sameTable ?g (?f ?g' _) => apply (sameTable_trans g g'); [|solve [auto with table]]
  | |- sameTable ?g (?f ?g' _ _) => apply (sameTable_trans g g'); [|solve [auto with table]]
  | |- sameTable ?g (?f ?g' _ _ _) => apply (sameTable_trans g g'); [|solve [auto with table]]
  end.

Lemma sameTable_moveRoadSmash g road pawn : sameTable g (moveRoadSmash g road pawn).
Proof.
  unfold moveRoadSmash. destruct (smashPawn g road pawn) as [[[c k] victim]|].
  - repeat table_step.
  - apply sameTable_refl.
Qed.

Lemma sameTable_moveRoadRelocate g id i g' road pawn :
  moveRoadRelocate g id i = Returned (g', road, pawn) -> sameTable g g'.
Proof.
  unfold moveRoadRelocate. unfold_outcome. intros H.
  repeat case_match; simplify_eq. repeat table_step.
Qed.

Lemma moves_sameTable (g g' : Game.t) (id : string) (pawnIndex : Z) :
  moveInitialGame g id pawnIndex = Returned g'
  ∨ moveFinalGame g id pawnIndex = Returned g'
  ∨ moveRoadGame g id pawnIndex = Returned g' ->
  sameTable g g'.
Proof.
  intros H. destruct H as [H | [H | H]].
  - unfold moveInitialGame in H. unfold_outcome.
    repeat case_match; simplify_eq. repeat table_step.
  - unfold moveFinalGame in H. unfold_outcome.
    repeat case_match; simplify_eq. repeat table_step.
  - unfold moveRoadGame in H. unfold_outcome.
    destruct (moveRoadRelocate g id pawnIndex) as [[[g1 road] pawn]| |] eqn:Hr;
      simplify_eq.
    apply sameTable_moveRoadRelocate in Hr.
    eapply sameTable_trans; [exact Hr|].
    eapply sameTable_trans; [apply (sameTable_moveRoadSmash g1 road pawn)|].
    repeat table_step.
Qed.

(** X7.  A move writes only pawns, the last-move descriptor and the
    grouping markers.  Whenever [moveInitial], [moveFinal] or [moveRoad]
    completes on a game, the resulting game has the same id, players,
    current player, dice, winners, road, initial zones and final zones. *)
Theorem moves_keep_the_table (g g' : Game.t) (id : string) (pawnIndex : Z) :
  moveInitialGame g id pawnIndex = Returned g'
  ∨ moveFinalGame g id pawnIndex = Returned g'
  ∨ moveRoadGame g id pawnIndex = Returned g' ->
  Game.id g' = Game.id g
  ∧ Game.players g' = Game.players g
  ∧ Game.current g' = Game.current g
  ∧ Game.dice g' = Game.dice g
  ∧ Game.winners g' = Game.winners g
  ∧ Board.road (Game.board g') = Board.road (Game.board g)
  ∧ Board.initialZone (Game.board g') = Board.initialZone (Game.board g)
  ∧ Board.finalZone (Game.board g') = Board.finalZone (Game.board g).
Proof.
  intros H. apply moves_sameTable in H as (? & ? & ? & ? & ->).
  repeat split; reflexivity.
Qed.

(** Red's pawn 0 enters the ring after the 6 of [rolledWorld]. *)
Definition enteredGame : Game.t :=
  match moveInitialGame (stored rolledWorld) "ana" 0 with
  | Returned g => g
  | _ => stored rolledWorld
  end.

Lemma moves_keep_the_table_witness :
  Game.id enteredGame = Game.id (stored rolledWorld)
  ∧ Game.players enteredGame = Game.players (stored rolledWorld)
  ∧ Game.current enteredGame = Game.current (stored rolledWorld)
  ∧ Game.dice enteredGame = Game.dice (stored rolledWorld)
  ∧ Game.winners enteredGame = Game.winners (stored rolledWorld)
  ∧ Board.road (Game.board enteredGame) = Board.road (Game.board (stored rolledWorld))
  ∧ Board.initialZone (Game.board enteredGame)
    = Board.initialZone (Game.board (stored rolledWorld))
  ∧ Board.finalZone (Game.board enteredGame)
    = Board.finalZone (Game.board (stored rolledWorld)).
Proof.
  apply (moves_keep_the_table (stored rolledWorld) enteredGame "ana" 0).
  left. vm_compute. reflexivity.
Defined.

(** ** Pawns keep their identity *)

Definition pawnsOf (g : Game.t) (c : ColorEnum) : list Pawn.t :=
  ColorSquare.get (Board.pawns (Game.board g)) c.

(** The colour and index of each pawn of colour [c], in order. *)
Definition identities (g : Game.t) (c : ColorEnum) : list (ColorEnum * Z) :=
  (fun p => (Pawn.color p, Pawn.index p)) <$> pawnsOf g c.

Definition samePawnIds (g g' : Game.t) : Prop :=
  forall c, identities g' c = identities g c.

Lemma get_set_eq {T} (m : ColorSquare.t T) c v :
  ColorSquare.get (ColorSquare.set m c v) c = v.
Proof. destruct c; reflexivity. Qed.

Lemma get_set_ne {T} (m : ColorSquare.t T) c c' v :
  c ≠ c' -> ColorSquare.get (ColorSquare.set m c v) c' = ColorSquare.get m c'.
Proof. destruct c, c'; try reflexivity; congruence. Qed.

Lemma pawnsOf_pawnAt g c k f c' :
  pawnsOf (Upd.pawnAt g c k f) c'
  = if decide (c = c') then alter f k (pawnsOf g c) else pawnsOf g c'.
Proof.
  unfold pawnsOf, Upd.pawnAt. simpl. destruct (decide (c = c')) as [<-|Hne].
  - apply get_set_eq.
  - apply get_set_ne, Hne.
Qed.

Lemma pawnsOf_pawnsOf g c f c' :
  pawnsOf (Upd.pawnsOf g c f) c'
  = if decide (c = c') then f <$> pawnsOf g c else pawnsOf g c'.
Proof.
  unfold pawnsOf, Upd.pawnsOf. simpl. destruct (decide (c = c')) as [<-|Hne].
  - apply get_set_eq.
  - apply get_set_ne, Hne.
Qed.

Lemma samePawnIds_refl g : samePawnIds g g.
Proof. intros c. reflexivity. Qed.

Lemma samePawnIds_trans g1 g2 g3 :
  samePawnIds g1 g2 -> samePawnIds g2 g3 -> samePawnIds g1 g3.
Proof. intros H1 H2 c. rewrite H2. apply H1. Qed.

Lemma samePawnIds_pawnAt g c k f :
  (forall p, (Pawn.color (f p), Pawn.index (f p)) = (Pawn.color p, Pawn.index p)) ->
  samePawnIds g (Upd.pawnAt g c k f).
Proof.
  intros Hf c'. unfold identities. rewrite pawnsOf_pawnAt.
  destruct (decide (c = c')) as [<-|]; [|reflexivity].
  rewrite (list_fmap_alter _ f id).
  - apply list_alter_id. reflexivity.
  - apply Forall_forall. intros p _. apply Hf.
Qed.

Lemma samePawnIds_pawnsOf g c f :
  (forall p, (Pawn.color (f p), Pawn.index (f p)) = (Pawn.color p, Pawn.index p)) ->
  samePawnIds g (Upd.pawnsOf g c f).
Proof.
  intros Hf c'. unfold identities. rewrite pawnsOf_pawnsOf.
  destruct (decide (c = c')) as [<-|]; [|reflexivity].
  rewrite <- list_fmap_compose. apply list_fmap_ext. intros ? p _. apply Hf.
Qed.

(** Whatever leaves the pawns alone keeps their identities. *)
Lemma samePawnIds_same_pawns g g' :
  Board.pawns (Game.board g') = Board.pawns (Game.board g) -> samePawnIds g g'.
Proof. intros H c. unfold identities, pawnsOf. rewrite H. reflexivity. Qed.

Lemma pawns_addMitosis g p :
  Board.pawns (Game.board (addMitosisIfNeeded g p)) = Board.pawns (Game.board g).
Proof. destruct (addMitosisIfNeeded_writes g p) as [m ->]. reflexivity. Qed.

Lemma pawns_removeMitosis g p :
  Board.pawns (Game.board (removeMitosisIfNeeded g p)) = Board.pawns (Game.board g).
Proof. destruct (removeMitosisIfNeeded_writes g p) as [m ->]. reflexivity. Qed.

Lemma pawns_addKaryogamy g p :
  Board.pawns (Game.board (addKaryogamyIfNeeded g p)) = Board.pawns (Game.board g).
Proof. destruct (addKaryogamyIfNeeded_writes g p) as [m ->]. reflexivity. Qed.

Lemma pawns_removeKaryogamy g p :
  Board.pawns (Game.board (removeKaryogamyIfNeeded g p)) = Board.pawns (Game.board g).
Proof. destruct (removeKaryogamyIfNeeded_writes g p) as [m ->]. reflexivity. Qed.

Ltac ids_step :=
  lazymatch goal with
  | |- samePawnIds ?g ?g => apply samePawnIds_refl
  | |- samePawnIds ?g (Upd.pawnAt ?g' _ _ _) =>
      apply (samePawnIds_trans g g'); [|apply samePawnIds_pawnAt; reflexivity]
  | |- samePawnIds ?g (Upd.pawnsOf ?g' _ _) =>
      apply (samePawnIds_trans g g'); [|apply samePawnIds_pawnsOf; reflexivity]
  | |- samePawnIds ?g (Upd.movePawn ?g' _) =>
      apply (samePawnIds_trans g g'); [|apply samePawnIds_same_pawns; reflexivity]
  | |- samePawnIds ?g (Upd.dice ?g' _) =>
      apply (samePawnIds_trans g g'); [|apply samePawnIds_same_pawns; reflexivity]
  | |- samePawnIds ?g (Upd.current ?g' _) =>
      apply (samePawnIds_trans g g'); [|apply samePawnIds_same_pawns; reflexivity]
  | |- samePawnIds ?g (addMitosisIfNeeded ?g' _) =>
      apply (samePawnIds_trans g g'); [|apply samePawnIds_same_pawns, pawns_addMitosis]
  | |- samePawnIds ?g (removeMitosisIfNeeded ?g' _) =>
      apply (samePawnIds_trans g g'); [|apply samePawnIds_same_pawns, pawns_removeMitosis]
  | |- samePawnIds ?g (addKaryogamyIfNeeded ?g' _) =>
      apply (samePawnIds_trans g g'); [|apply samePawnIds_same_pawns, pawns_addKaryogamy]
  | |- samePawnIds ?g (removeKaryogamyIfNeeded ?g' _) =>
      apply (samePawnIds_trans g g'); [|apply samePawnIds_same_pawns, pawns_removeKaryogamy]
  end.

Lemma samePawnIds_moveRoadSmash g road pawn : samePawnIds g (moveRoadSmash g road pawn).
Proof.
  unfold moveRoadSmash. destruct (smashPawn g road pawn) as [[[c k] victim]|].
  - repeat ids_step.
  - apply samePawnIds_refl.
Qed.

(** X8.  No move and no roll result creates, removes, recolours or
    renumbers a pawn: after [rollResult], [moveInitial], [moveFinal] or
    [moveRoad], every colour has the same pawns, in the same order, with
    the same colour and index as before (only their square, their
    end-reached flag and their pending action may differ). *)
Theorem pawns_keep_their_identity (depth : nat) (g g' : Game.t) (id : string)
    (pawnIndex : Z) :
  rollResultGame depth g id = Returned g'
  ∨ moveInitialGame g id pawnIndex = Returned g'
  ∨ moveFinalGame g id pawnIndex = Returned g'
  ∨ moveRoadGame g id pawnIndex = Returned g' ->
  forall c, (fun p => (Pawn.color p, Pawn.index p))
              <$> ColorSquare.get (Board.pawns (Game.board g')) c
            = (fun p => (Pawn.color p, Pawn.index p))
              <$> ColorSquare.get (Board.pawns (Game.board g)) c.
Proof.
  intros H. change (samePawnIds g g'). destruct H as [H | [H | [H | H]]].
  - unfold rollResultGame in H. unfold_outcome.
    repeat case_match; simplify_eq; repeat ids_step.
    all: apply samePawnIds_pawnsOf; intros p; unfold rollResultPawn;
      repeat case_match; reflexivity.
  - unfold moveInitialGame in H. unfold_outcome.
    repeat case_match; simplify_eq. repeat ids_step.
  - unfold moveFinalGame in H. unfold_outcome.
    repeat case_match; simplify_eq. repeat ids_step.
  - unfold moveRoadGame, moveRoadRelocate in H. unfold_outcome.
    repeat case_match; simplify_eq.
    repeat ids_step.
    eapply samePawnIds_trans; [|apply samePawnIds_moveRoadSmash].
    repeat ids_step.
Qed.

Lemma pawns_keep_their_identity_witness :
  (fun p => (Pawn.color p, Pawn.index p))
    <$> ColorSquare.get (Board.pawns (Game.board enteredGame)) RED
  = (fun p => (Pawn.color p, Pawn.index p))
    <$> ColorSquare.get (Board.pawns (Game.board (stored rolledWorld))) RED.
Proof.
  apply (pawns_keep_their_identity 8 (stored rolledWorld) enteredGame "ana" 0).
  right; left. vm_compute. reflexivity.
Defined.

(** * Road moves: where the walk goes *)

Lemma exitIndex_offset (c : ColorEnum) : exitIndex c = 13 * colorIndex c + 6.
Proof. destruct c; reflexivity. Qed.

(** X9.  The walk of [moveRoad] on the generated road.  A pawn of colour
    [c] on [road-r] ([0 ≤ r ≤ 51]) moved by a dice result [d] from 1 to 6
    gets a path of exactly [d] cells.  With [s] the number of steps from
    [r] forward to the exit cell of [c] (ring offset [13k+6] for the k-th
    colour, counted modulo 52), step [j] lands on ring cell
    [road-((r+j) mod 52)] while [j ≤ s] (the exit cell itself is still a
    ring cell of the path) and on lane cell [final-c-(j-s-1)] afterwards,
    so the first lane cell is index 0. *)
Theorem roadWalk_path (pawn : Pawn.t) (r d : Z) :
  Pawn.squareId pawn = roadSquareId r ->
  0 ≤ r ≤ 51 -> 1 ≤ d ≤ 6 ->
  let c := Pawn.color pawn in
  let s := (13 * colorIndex c + 6 - r) mod 52 in
  exists finalIndex path,
    roadWalk generateRoad pawn d = Returned (finalIndex, path)
    ∧ Z.of_nat (length path) = d
    ∧ forall j, 1 ≤ j ≤ d ->
        Js.at_ path (j - 1)
        = Some (if j <=? s then roadSquareId ((r + j) mod 52) else finalId c (j - s - 1)).
Proof.
  intros Hsq Hr Hd. cbv zeta. set (c := Pawn.color pawn).
  exists (laneCounter c r d), (pathCell c r <$> forRange 1 d).
  split; [apply roadWalk_generated; assumption|].
  split; [apply (length_path pawn r d Hd)|].
  intros j Hj. pose proof (lookup_path pawn r d Hd j Hj) as Hl. fold c in Hl.
  rewrite Hl. unfold pathCell, stepsToExit. rewrite exitIndex_offset. reflexivity.
Qed.

(** A yellow pawn two cells before its exit rolls a 5. *)
Lemma roadWalk_path_witness :
  exists finalIndex path,
    roadWalk generateRoad (roadPawn YELLOW 30) 5 = Returned (finalIndex, path)
    ∧ Z.of_nat (length path) = 5
    ∧ forall j, 1 ≤ j ≤ 5 ->
        Js.at_ path (j - 1)
        = Some (if j <=? (13 * colorIndex YELLOW + 6 - 30) mod 52
                then roadSquareId ((30 + j) mod 52)
                else finalId YELLOW (j - (13 * colorIndex YELLOW + 6 - 30) mod 52 - 1)).
Proof.
  apply (roadWalk_path (roadPawn YELLOW 30) 30 5); [reflexivity | lia | lia].
Defined.

(** * Captures *)

Lemma findAt_Some {A} (p : A -> bool) (xs : list A) (k : nat) (x : A) :
  findAt p xs = Some (k, x) -> xs !! k = Some x ∧ p x = true.
Proof.
  revert k. induction xs as [|y xs IH]; intros k; simpl; [discriminate|].
  destruct (p y) eqn:Hy.
  - intros [= <- <-]. auto.
  - destruct (findAt p xs) as [[k' x']|]; simpl; [|discriminate].
    intros [= <- <-]. apply (IH k'). reflexivity.
Qed.

Lemma findAt_None {A} (p : A -> bool) (xs : list A) :
  findAt p xs = None -> forall x, x ∈ xs -> p x = false.
Proof.
  induction xs as [|y xs IH]; simpl; intros H x Hx.
  - inversion Hx.
  - destruct (p y) eqn:Hy; [discriminate|].
    destruct (findAt p xs) as [[k' x']|]; [discriminate|].
    apply elem_of_cons in Hx as [->|Hx]; auto.
Qed.

Lemma firstPawnOn_Some g sq cs c k v :
  firstPawnOn g sq cs = Some (c, k, v) ->
  c ∈ cs ∧ pawnsOf g c !! k = Some v ∧ Pawn.squareId v = sq.
Proof.
  induction cs as [|c0 cs IH]; simpl; [discriminate|].
  destruct (findAt _ _) as [[k' v']|] eqn:Hf.
  - intros [= <- <- <-]. apply findAt_Some in Hf as [Hl Hp].
    apply String.eqb_eq in Hp. split; [left|]. auto.
  - intros H. destruct (IH H) as (? & ? & ?). split; [right|]; auto.
Qed.

Lemma firstPawnOn_None g sq cs :
  firstPawnOn g sq cs = None ->
  forall c v, c ∈ cs -> v ∈ pawnsOf g c -> Pawn.squareId v ≠ sq.
Proof.
  induction cs as [|c0 cs IH]; simpl; intros H c v Hc Hv.
  - inversion Hc.
  - destruct (findAt _ _) as [[k' v']|] eqn:Hf; [discriminate|].
    apply elem_of_cons in Hc as [->|Hc]; [|eauto].
    apply (findAt_None _ _ Hf) in Hv. apply String.eqb_neq, Hv.
Qed.

Lemma elem_of_otherColors (c mine : ColorEnum) :
  c ∈ filter (fun c => c ≠ mine) colors ↔ c ≠ mine.
Proof.
  rewrite list_elem_of_filter. split; [tauto|]. intros H. split; [exact H|].
  destruct c; apply list_elem_of_In; simpl; tauto.
Qed.

(** The victim [smashPawn] names stands on the destination and is of
    another colour. *)
Lemma smashPawn_victim (g : Game.t) (road : RoadOrFinal) (pawn : Pawn.t) c k v :
  smashPawn g road pawn = Some (c, k, v) ->
  c ≠ Pawn.color pawn
  ∧ ColorSquare.get (Board.pawns (Game.board g)) c !! k = Some v
  ∧ Pawn.squareId v = roadId road.
Proof.
  unfold smashPawn. intros H.
  repeat case_match; try discriminate.
  apply firstPawnOn_Some in H as (Hc & Hk & Hsq).
  apply elem_of_otherColors in Hc. auto.
Qed.

(** X10.  [smashPawn] names a victim exactly when the destination's id
    does not contain "final", the destination is not a safe zone, exactly
    2 pawns stand on it, and a pawn of a colour other than the mover's
    stands on it; the victim it names is such a pawn of another colour
    standing on the destination. *)
Theorem smashPawn_captures (g : Game.t) (road : RoadOrFinal) (pawn : Pawn.t) :
  (is_Some (smashPawn g road pawn)
   ↔ Js.includes "final" (roadId road) = false
     ∧ roadSafeZone road = false
     ∧ length (getPawnsOnRoad g (roadId road)) = 2%nat
     ∧ exists c v, c ≠ Pawn.color pawn
                   ∧ v ∈ ColorSquare.get (Board.pawns (Game.board g)) c
                   ∧ Pawn.squareId v = roadId road)
  ∧ (forall c k v, smashPawn g road pawn = Some (c, k, v) ->
       c ≠ Pawn.color pawn
       ∧ ColorSquare.get (Board.pawns (Game.board g)) c !! k = Some v
       ∧ Pawn.squareId v = roadId road).
Proof.
  split; [|intros c k v; apply smashPawn_victim]. split.
  - intros [[[c k] v] H].
    destruct (smashPawn_victim g road pawn c k v H) as (Hc & Hk & Hsq).
    unfold smashPawn in H.
    destruct (Js.includes "final" (roadId road)); [discriminate|].
    destruct (roadSafeZone road); [discriminate|].
    destruct (Nat.eqb_spec (length (getPawnsOnRoad g (roadId road))) 2);
      [|discriminate].
    repeat split; try assumption. exists c, v.
    split; [exact Hc|]. split; [|exact Hsq].
    apply list_elem_of_lookup. exists k. exact Hk.
  - intros (Hf & Hs & Hl & c & v & Hc & Hv & Hsq).
    unfold smashPawn. rewrite Hf, Hs, Hl. simpl.
    destruct (firstPawnOn _ _ _) as [x|] eqn:Hfirst; [eauto|].
    exfalso. apply (firstPawnOn_None _ _ _ Hfirst c v); auto.
    apply elem_of_otherColors, Hc.
Qed.

(** Red enters and advances to [road-10]; green enters and steps to
    [road-22]; yellow and blue cannot move; red rolls a 6 to [road-16] and
    another 6, and is told which pawns may move. *)
Definition chaseWorld : World.t :=
  play rolledWorld
    [("ana", MoveInitial 0); ("ana", MovedPawn);
     ("ana", RollDice 2); ("ana", RollResult); ("ana", MoveRoad 0); ("ana", MovedPawn);
     ("bob", RollDice 6); ("bob", RollResult); ("bob", MoveInitial 0); ("bob", MovedPawn);
     ("bob", RollDice 1); ("bob", RollResult); ("bob", MoveRoad 0); ("bob", MovedPawn);
     ("cy", RollDice 3); ("cy", RollResult);
     ("dee", RollDice 3); ("dee", RollResult);
     ("ana", RollDice 6); ("ana", RollResult); ("ana", MoveRoad 0); ("ana", MovedPawn);
     ("ana", RollDice 6); ("ana", RollResult)].

(** The state on which [smashPawn] runs when red then moves pawn 0. *)
Definition chaseRelocated : Game.t * RoadOrFinal * Pawn.t :=
  match moveRoadRelocate (stored chaseWorld) "ana" 0 with
  | Returned x => x
  | _ => (stored chaseWorld, OnFinal (FinalSquare.mk ""), roadPawn RED 0)
  end.

Lemma smashPawn_captures_witness :
  smashPawn chaseRelocated.1.1 chaseRelocated.1.2 chaseRelocated.2
  = Some (GREEN, 0%nat, Pawn.mk GREEN 0 "road-22" false None)
  ∧ GREEN ≠ Pawn.color chaseRelocated.2
  ∧ ColorSquare.get (Board.pawns (Game.board chaseRelocated.1.1)) GREEN !! 0%nat
    = Some (Pawn.mk GREEN 0 "road-22" false None)
  ∧ Pawn.squareId (Pawn.mk GREEN 0 "road-22" false None) = roadId chaseRelocated.1.2.
Proof.
  split; [vm_compute; reflexivity|].
  apply (proj2 (smashPawn_captures chaseRelocated.1.1 chaseRelocated.1.2 chaseRelocated.2)).
  vm_compute. reflexivity.
Defined.

Lemma movePawn_pawnAt g c k f :
  Board.movePawn (Game.board (Upd.pawnAt g c k f)) = Board.movePawn (Game.board g).
Proof. reflexivity. Qed.

(** X11.  What a capture does.  When [smashPawn] names a victim, the road
    move sends exactly that pawn object back to the initial cell printed
    from its own colour and index, leaves every other pawn as it was, and
    records the victim's colour and index in the last-move descriptor;
    when it names none, the state is untouched. *)
Theorem capture_sends_home (g : Game.t) (road : RoadOrFinal) (pawn : Pawn.t) :
  match smashPawn g road pawn with
  | Some (c, k, victim) =>
      ColorSquare.get (Board.pawns (Game.board (moveRoadSmash g road pawn))) c !! k
      = Some (Pawn.withSquareId victim (initialId (Pawn.color victim) (Pawn.index victim)))
      ∧ (forall c' k', (c', k') ≠ (c, k) ->
           ColorSquare.get (Board.pawns (Game.board (moveRoadSmash g road pawn))) c' !! k'
           = ColorSquare.get (Board.pawns (Game.board g)) c' !! k')
      ∧ MovePawn.smash <$> Board.movePawn (Game.board (moveRoadSmash g road pawn))
        = (fun _ => Some (Pawn.color victim, Pawn.index victim))
            <$> Board.movePawn (Game.board g)
  | None => moveRoadSmash g road pawn = g
  end.
Proof.
  unfold moveRoadSmash.
  destruct (smashPawn g road pawn) as [[[c k] victim]|] eqn:Hs; [|reflexivity].
  apply smashPawn_victim in Hs as (_ & Hk & _).
  split; [|split].
  - change (pawnsOf (Upd.pawnAt g c k
              (fun p => Pawn.withSquareId p
                          (initialId (Pawn.color victim) (Pawn.index victim)))) c !! k
            = Some (Pawn.withSquareId victim
                      (initialId (Pawn.color victim) (Pawn.index victim)))).
    rewrite pawnsOf_pawnAt, decide_True by reflexivity.
    rewrite list_lookup_alter_eq. unfold pawnsOf. rewrite Hk. reflexivity.
  - intros c' k' Hne.
    change (pawnsOf (Upd.pawnAt g c k
              (fun p => Pawn.withSquareId p
                          (initialId (Pawn.color victim) (Pawn.index victim)))) c' !! k'
            = pawnsOf g c' !! k').
    rewrite pawnsOf_pawnAt. destruct (decide (c = c')) as [<-|]; [|reflexivity].
    rewrite list_lookup_alter_ne by congruence. reflexivity.
  - simpl. destruct (Board.movePawn (Game.board g)); reflexivity.
Qed.

(** * Road moves: the resulting game *)

Lemma at_Some {A} (xs : list A) (i : Z) (x : A) :
  Js.at_ xs i = Some x -> 0 ≤ i ∧ xs !! Z.to_nat i = Some x.
Proof. unfold Js.at_. destruct (Z.ltb_spec i 0); [discriminate|]. auto. Qed.

Lemma at_nat {A} (xs : list A) (i : Z) :
  0 ≤ i -> Js.at_ xs i = xs !! Z.to_nat i.
Proof. intros H. unfold Js.at_. destruct (Z.ltb_spec i 0); [lia|reflexivity]. Qed.

Lemma pawnsOf_movePawn g v c : pawnsOf (Upd.movePawn g v) c = pawnsOf g c.
Proof. reflexivity. Qed.

Lemma eqb_bool_decide (a b : string) : String.eqb a b = bool_decide (a = b).
Proof.
  destruct (String.eqb_spec a b).
  - rewrite bool_decide_eq_true_2; auto.
  - rewrite bool_decide_eq_false_2; auto.
Qed.

(** X12.  A road move on a well-formed game.  On a game whose road and
    final zones are the generated ones, when the requester plays colour
    [c], the pawn at position [k] of that colour carries colour [c] and
    stands on [road-r] ([0 ≤ r ≤ 51]) and the dice shows [d] from 1 to 6,
    [moveRoad] completes without throwing; the last-move descriptor
    records the colour, the pawn's index, the square it left and the path
    walked; the pawn now stands on the last cell of the path, has its
    pending action cleared, and is flagged end-reached exactly when that
    cell is [final-c-5]. *)
Theorem moveRoad_result (g : Game.t) (id : string) (player : Player.t)
    (c : ColorEnum) (k r d : Z) (pawn : Pawn.t) :
  Board.road (Game.board g) = generateRoad ->
  Board.finalZone (Game.board g) = generateFinalZone ->
  Js.find (isPlayer id) (Game.players g) = Some player ->
  Player.color player = Some c ->
  Js.at_ (ColorSquare.get (Board.pawns (Game.board g)) c) k = Some pawn ->
  Pawn.color pawn = c ->
  Pawn.squareId pawn = roadSquareId r -> 0 ≤ r ≤ 51 ->
  Dice.result (Game.dice g) = d -> 1 ≤ d ≤ 6 ->
  exists g' finalIndex path smash moved,
    moveRoadGame g id k = Returned g'
    ∧ roadWalk generateRoad pawn d = Returned (finalIndex, path)
    ∧ Board.movePawn (Game.board g')
      = Some (MovePawn.mk c (Pawn.index pawn) (roadSquareId r) path smash)
    ∧ Js.at_ (ColorSquare.get (Board.pawns (Game.board g')) c) k = Some moved
    ∧ last path = Some (Pawn.squareId moved)
    ∧ Pawn.endReached moved = bool_decide (Pawn.squareId moved = finalId c 5)
    ∧ Pawn.action moved = None.
Proof.
  intros Hroad Hfinal Hplayer Hcolor Hat Hpc Hsq Hr Hdice Hd.
  apply at_Some in Hat as Hk. destruct Hk as [Hk0 Hk].
  set (g2 := removeKaryogamyIfNeeded (removeMitosisIfNeeded g pawn) pawn).
  assert (sameTable g g2) as Hsame
    by (eapply sameTable_trans; [apply sameTable_removeMitosis
                                |apply sameTable_removeKaryogamy]).
  assert (Board.pawns (Game.board g2) = Board.pawns (Game.board g)) as Hpawns
    by (unfold g2; rewrite pawns_removeKaryogamy; apply pawns_removeMitosis).
  assert (Board.road (Game.board g2) = generateRoad
          ∧ Board.finalZone (Game.board g2) = generateFinalZone
          ∧ Dice.result (Game.dice g2) = d) as (Hroad2 & Hfinal2 & Hdice2).
  { destruct Hsame as (? & ? & ? & ? & Heq). rewrite Heq. simpl. auto. }
  destruct (destination_generated pawn r d Hsq Hr Hd (Game.board g2) Hroad2 Hfinal2)
    as (sq & Hdest & Hid & _).
  pose proof (roadWalk_generated pawn r d Hsq Hr Hd) as Hwalk.
  pose proof (last_path pawn r d Hd) as Hlast. cbv zeta in Hlast.
  rewrite Hpc in Hdest, Hid, Hwalk, Hlast.
  set (path := pathCell c r <$> forRange 1 d) in *.
  set (moved := clearAction
                  (Pawn.withEndReached (Pawn.withSquareId pawn (roadId sq))
                                       (String.eqb (roadId sq) (finalId c 5)))).
  set (mp := MovePawn.mk c (Pawn.index pawn) (roadSquareId r) path).
  set (g5 := Upd.movePawn
               (Upd.pawnsOf
                  (Upd.pawnAt g2 c (Z.to_nat k)
                     (fun p => Pawn.withEndReached (Pawn.withSquareId p (roadId sq))
                                 (String.eqb (roadId sq) (finalId c 5))))
                  c clearAction)
               (Some (mp None))).
  assert (moveRoadRelocate g id k = Returned (g5, sq, moved)) as Hrel.
  { unfold moveRoadRelocate. rewrite Hplayer. simpl. rewrite Hcolor. simpl.
    rewrite Hat. simpl. fold g2. rewrite Hroad2, Hdice2, Hwalk. simpl.
    rewrite Hdest. simpl. rewrite Hpc, Hsq. reflexivity. }
  assert (pawnsOf g5 c !! Z.to_nat k = Some moved) as Hmoved.
  { unfold g5. rewrite pawnsOf_movePawn.
    rewrite pawnsOf_pawnsOf, decide_True by reflexivity.
    rewrite list_lookup_fmap, pawnsOf_pawnAt, decide_True by reflexivity.
    rewrite list_lookup_alter_eq. unfold pawnsOf. rewrite Hpawns, Hk. simpl.
    reflexivity. }
  assert (exists smash,
            Board.movePawn (Game.board (moveRoadSmash g5 sq moved)) = Some (mp smash)
            ∧ pawnsOf (moveRoadSmash g5 sq moved) c = pawnsOf g5 c)
    as (smash & Hmp & Hps).
  { unfold moveRoadSmash.
    destruct (smashPawn g5 sq moved) as [[[c' k'] victim]|] eqn:Hs.
    - apply smashPawn_victim in Hs as (Hc' & _). simpl in Hc'. rewrite Hpc in Hc'.
      eexists. split; [reflexivity|].
      rewrite pawnsOf_movePawn, pawnsOf_pawnAt, decide_False by exact Hc'.
      reflexivity.
    - exists None. split; reflexivity. }
  exists (addKaryogamyIfNeeded (addMitosisIfNeeded (moveRoadSmash g5 sq moved) moved) moved),
    (laneCounter c r d), path, smash, moved.
  split; [unfold moveRoadGame; rewrite Hrel; reflexivity|].
  split; [exact Hwalk|].
  destruct (addMitosisIfNeeded_writes (moveRoadSmash g5 sq moved) moved) as [m1 ->].
  destruct (addKaryogamyIfNeeded_writes (Upd.mitosis (moveRoadSmash g5 sq moved) m1) moved)
    as [m2 ->].
  split; [exact Hmp|].
  split.
  { rewrite at_nat by exact Hk0.
    change (pawnsOf (moveRoadSmash g5 sq moved) c !! Z.to_nat k = Some moved).
    rewrite Hps. exact Hmoved. }
  split; [rewrite Hlast, <- Hid; reflexivity|].
  split; [apply eqb_bool_decide|reflexivity].
Qed.

(** Red's pawn 0, on [road-16] with a 6 on the dice in [chaseWorld]. *)
Lemma moveRoad_result_witness :
  exists g' finalIndex path smash moved,
    moveRoadGame (stored chaseWorld) "ana" 0 = Returned g'
    ∧ roadWalk generateRoad (Pawn.mk RED 0 "road-16" false (Some (MOVE_ROAD, 0))) 6
      = Returned (finalIndex, path)
    ∧ Board.movePawn (Game.board g')
      = Some (MovePawn.mk RED 0 (roadSquareId 16) path smash)
    ∧ Js.at_ (ColorSquare.get (Board.pawns (Game.board g')) RED) 0 = Some moved
    ∧ last path = Some (Pawn.squareId moved)
    ∧ Pawn.endReached moved = bool_decide (Pawn.squareId moved = finalId RED 5)
    ∧ Pawn.action moved = None.
Proof.
  apply (moveRoad_result (stored chaseWorld) "ana" (Player.mk "ana" (Some RED)) RED 0 16 6
           (Pawn.mk RED 0 "road-16" false (Some (MOVE_ROAD, 0))));
    first [lia | vm_compute; reflexivity].
Defined.

(** * Entry and home-lane moves *)

Lemma entrance_generated (c : ColorEnum) :
  Js.find (fun r => colorEqb (Square.color r) c && Square.entrance r) generateRoad
  = Some (Square.mk (roadSquareId (13 * colorIndex c + 8)) c true false true).
Proof. destruct c; reflexivity. Qed.

(** X13.  An entry move on the generated road.  When the requester plays
    colour [c] and the pawn at position [k] of that colour carries colour
    [c], [moveInitial] completes; the pawn now stands on the entrance of
    [c], ring cell [road-(13i+8)] for the i-th colour, with its pending
    action cleared; the last-move descriptor records the colour, the
    pawn's index, the square it left, the one-cell path and no capture. *)
Theorem moveInitial_result (g : Game.t) (id : string) (player : Player.t)
    (c : ColorEnum) (k : Z) (pawn : Pawn.t) :
  Board.road (Game.board g) = generateRoad ->
  Js.find (isPlayer id) (Game.players g) = Some player ->
  Player.color player = Some c ->
  Js.at_ (ColorSquare.get (Board.pawns (Game.board g)) c) k = Some pawn ->
  Pawn.color pawn = c ->
  exists g',
    moveInitialGame g id k = Returned g'
    ∧ Board.movePawn (Game.board g')
      = Some (MovePawn.mk c (Pawn.index pawn) (Pawn.squareId pawn)
                          [roadSquareId (13 * colorIndex c + 8)] None)
    ∧ Js.at_ (ColorSquare.get (Board.pawns (Game.board g')) c) k
      = Some (Pawn.mk c (Pawn.index pawn) (roadSquareId (13 * colorIndex c + 8))
                      (Pawn.endReached pawn) None).
Proof.
  intros Hroad Hplayer Hcolor Hat Hpc.
  apply at_Some in Hat as Hk. destruct Hk as [Hk0 Hk].
  unfold moveInitialGame. rewrite Hplayer. simpl. rewrite Hcolor. simpl.
  rewrite Hat. simpl.
  change (Board.road (Game.board (Upd.pawnsOf g c clearAction)))
    with (Board.road (Game.board g)).
  rewrite Hroad, Hpc, entrance_generated. simpl.
  eexists. split; [reflexivity|].
  match goal with
  | |- context [addKaryogamyIfNeeded (addMitosisIfNeeded ?x ?p) ?q] =>
      destruct (addMitosisIfNeeded_writes x p) as [m1 ->];
      destruct (addKaryogamyIfNeeded_writes (Upd.mitosis x m1) q) as [m2 ->]
  end.
  split; [reflexivity|].
  rewrite at_nat by exact Hk0.
  match goal with
  | |- ColorSquare.get (Board.pawns (Game.board ?x)) c !! _ = _ =>
      change (ColorSquare.get (Board.pawns (Game.board x)) c)
        with (pawnsOf (Upd.pawnAt (Upd.pawnsOf g c clearAction) c (Z.to_nat k)
                         (fun p => Pawn.withSquareId p
                                     (roadSquareId (13 * colorIndex c + 8)))) c)
  end.
  rewrite pawnsOf_pawnAt, decide_True by reflexivity.
  rewrite list_lookup_alter_eq, pawnsOf_pawnsOf, decide_True by reflexivity.
  rewrite list_lookup_fmap. unfold pawnsOf. rewrite Hk. simpl.
  rewrite <- Hpc. reflexivity.
Qed.

Lemma moveInitial_result_witness :
  exists g',
    moveInitialGame (stored rolledWorld) "ana" 0 = Returned g'
    ∧ Board.movePawn (Game.board g')
      = Some (MovePawn.mk RED 0 "initial-red-0" [roadSquareId (13 * colorIndex RED + 8)] None)
    ∧ Js.at_ (ColorSquare.get (Board.pawns (Game.board g')) RED) 0
      = Some (Pawn.mk RED 0 (roadSquareId (13 * colorIndex RED + 8)) false None).
Proof.
  apply (moveInitial_result (stored rolledWorld) "ana" (Player.mk "ana" (Some RED)) RED 0
           (Pawn.mk RED 0 "initial-red-0" false (Some (MOVE_INITIAL, 0))));
    vm_compute; reflexivity.
Defined.

Lemma includes_5_finalId (c : ColorEnum) (m : Z) :
  0 ≤ m ≤ 5 -> Js.includes "5" (finalId c m) = bool_decide (m = 5).
Proof.
  intros Hm.
  assert (m = 0 ∨ m = 1 ∨ m = 2 ∨ m = 3 ∨ m = 4 ∨ m = 5) as H by lia.
  destruct c; repeat (destruct H as [->|H]); subst; reflexivity.
Qed.

#[local] Arguments Js.includes : simpl never.

Lemma lane_path (f : Z -> string) (n d : Z) :
  (fun i => f (n + i + 1)) <$> forRange 0 (d - 1) = (fun j => f (n + j)) <$> forRange 1 d.
Proof.
  unfold forRange. rewrite <- !list_fmap_compose.
  replace (Z.to_nat (d - 1 - 0 + 1)) with (Z.to_nat (d - 1 + 1)) by lia.
  apply list_fmap_ext. intros i x _. simpl. f_equal. lia.
Qed.

(** X14.  A home-lane move.  When the requester plays colour [c], the
    pawn at position [k] of that colour carries colour [c] and stands on
    [final-c-n], and the dice result [d ≥ 1] does not pass cell 5
    ([n + d ≤ 5]), [moveFinal] completes; the pawn now stands on
    [final-c-(n+d)] with its pending action cleared and is flagged
    end-reached exactly when [n + d = 5]; the last-move descriptor records
    the colour, the pawn's index, the square it left, the path
    [final-c-(n+1) .. final-c-(n+d)] and no capture. *)
Theorem moveFinal_result (g : Game.t) (id : string) (player : Player.t)
    (c : ColorEnum) (k n d : Z) (pawn : Pawn.t) :
  Js.find (isPlayer id) (Game.players g) = Some player ->
  Player.color player = Some c ->
  Js.at_ (ColorSquare.get (Board.pawns (Game.board g)) c) k = Some pawn ->
  Pawn.color pawn = c ->
  Pawn.squareId pawn = finalId c n -> 0 ≤ n ->
  Dice.result (Game.dice g) = d -> 1 ≤ d -> n + d ≤ 5 ->
  exists g',
    moveFinalGame g id k = Returned g'
    ∧ Board.movePawn (Game.board g')
      = Some (MovePawn.mk c (Pawn.index pawn) (finalId c n)
                          ((fun j => finalId c (n + j)) <$> forRange 1 d) None)
    ∧ Js.at_ (ColorSquare.get (Board.pawns (Game.board g')) c) k
      = Some (Pawn.mk c (Pawn.index pawn) (finalId c (n + d))
                      (bool_decide (n + d = 5)) None).
Proof.
  intros Hplayer Hcolor Hat Hpc Hsq Hn Hdice Hd Hnd.
  apply at_Some in Hat as Hk. destruct Hk as [Hk0 Hk].
  set (g1 := removeKaryogamyIfNeeded g pawn).
  assert (Board.pawns (Game.board g1) = Board.pawns (Game.board g)) as Hpawns
    by apply pawns_removeKaryogamy.
  assert (Dice.result (Game.dice g1) = d) as Hdice1.
  { destruct (removeKaryogamyIfNeeded_writes g pawn) as [m Hm].
    unfold g1. rewrite Hm. exact Hdice. }
  unfold moveFinalGame. rewrite Hplayer. simpl. rewrite Hcolor. simpl.
  rewrite Hat. simpl. fold g1.
  rewrite (getSquareIndex_finalId pawn c n Hn) by auto. simpl.
  change (Game.dice (Upd.pawnsOf g1 c clearAction)) with (Game.dice g1).
  rewrite Hdice1, Hpc.
  rewrite (getSquareIndex_finalId _ c (n + d)) by (simpl; auto; lia). simpl.
  destruct (Z.ltb_spec (n + d - n) 0) as [|_]; [lia|].
  replace (n + d - n - 1) with (d - 1) by lia.
  rewrite (lane_path (finalId c) n d), includes_5_finalId, Hsq by lia.
  eexists. split; [reflexivity|].
  match goal with
  | |- context [addKaryogamyIfNeeded ?x ?q] =>
      destruct (addKaryogamyIfNeeded_writes x q) as [m2 ->]
  end.
  split; [reflexivity|].
  rewrite at_nat by exact Hk0.
  match goal with
  | |- ColorSquare.get (Board.pawns (Game.board ?x)) c !! _ = _ =>
      change (ColorSquare.get (Board.pawns (Game.board x)) c)
        with (pawnsOf (Upd.pawnAt (Upd.pawnsOf g1 c clearAction) c (Z.to_nat k)
                         (fun p => Pawn.withEndReached
                                     (Pawn.withSquareId p (finalId c (n + d)))
                                     (bool_decide (n + d = 5)))) c)
  end.
  rewrite pawnsOf_pawnAt, decide_True by reflexivity.
  rewrite list_lookup_alter_eq, pawnsOf_pawnsOf, decide_True by reflexivity.
  rewrite list_lookup_fmap. unfold pawnsOf. rewrite Hpawns, Hk. simpl.
  rewrite <- Hpc. reflexivity.
Qed.

(** Red's pawn 0 on cell 2 of its lane, with a 3 on the dice. *)
Definition laneGame : Game.t :=
  Upd.dice (Upd.pawnAt (stored readyWorld) RED 0
                       (fun p => Pawn.withSquareId p (finalId RED 2)))
           (Dice.mk 1 3 false false).

Lemma moveFinal_result_witness :
  exists g',
    moveFinalGame laneGame "ana" 0 = Returned g'
    ∧ Board.movePawn (Game.board g')
      = Some (MovePawn.mk RED 0 (finalId RED 2)
                          ((fun j => finalId RED (2 + j)) <$> forRange 1 3) None)
    ∧ Js.at_ (ColorSquare.get (Board.pawns (Game.board g')) RED) 0
      = Some (Pawn.mk RED 0 (finalId RED (2 + 3)) (bool_decide (2 + 3 = 5)) None).
Proof.
  apply (moveFinal_result laneGame "ana" (Player.mk "ana" (Some RED)) RED 0 2 3
           (Pawn.mk RED 0 (finalId RED 2) false None));
    first [lia | vm_compute; reflexivity].
Defined.

Lemma squareId_clearAction_lookup (ps : list Pawn.t) (j : nat) :
  Pawn.squareId <$> (clearAction <$> ps) !! j = Pawn.squareId <$> ps !! j.
Proof. rewrite list_lookup_fmap. destruct (ps !! j); reflexivity. Qed.

(** The pawns after the mover's colour had its actions cleared and the
    mover was rewritten by [f]: every other pawn keeps its square. *)
Lemma others_keep_square (g : Game.t) (c : ColorEnum) (k : nat) (f : Pawn.t -> Pawn.t)
    (c' : ColorEnum) (j : nat) :
  (c', j) ≠ (c, k) ->
  Pawn.squareId <$> pawnsOf (Upd.pawnAt (Upd.pawnsOf g c clearAction) c k f) c' !! j
  = Pawn.squareId <$> pawnsOf g c' !! j.
Proof.
  intros Hne. rewrite pawnsOf_pawnAt.
  destruct (decide (c = c')) as [<-|Hc]; rewrite pawnsOf_pawnsOf.
  - rewrite decide_True by reflexivity.
    rewrite list_lookup_alter_ne by congruence. apply squareId_clearAction_lookup.
  - rewrite decide_False by exact Hc. reflexivity.
Qed.

(** X15.  Entry and home-lane moves never capture.  Whenever
    [moveInitial] or [moveFinal] completes, the last-move descriptor
    records no capture, and every pawn other than the one at the requested
    position of the requester's colour stands on the square it stood on
    before. *)
Theorem quiet_moves (g g' : Game.t) (id : string) (pawnIndex : Z) :
  moveInitialGame g id pawnIndex = Returned g'
  ∨ moveFinalGame g id pawnIndex = Returned g' ->
  (exists m, Board.movePawn (Game.board g') = Some m ∧ MovePawn.smash m = None)
  ∧ exists c,
      Player.color <$> Js.find (isPlayer id) (Game.players g) = Some (Some c)
      ∧ forall c' j, (c', j) ≠ (c, Z.to_nat pawnIndex) ->
          Pawn.squareId <$> ColorSquare.get (Board.pawns (Game.board g')) c' !! j
          = Pawn.squareId <$> ColorSquare.get (Board.pawns (Game.board g)) c' !! j.
Proof.
  intros [H | H].
  - unfold moveInitialGame in H.
    destruct (Js.find (isPlayer id) (Game.players g)) as [player|]; [|discriminate].
    simpl in H. destruct (Player.color player) as [c|] eqn:Hc; [|discriminate]. simpl in H.
    destruct (Js.at_ _ pawnIndex) as [pawn|]; [|discriminate]. simpl in H.
    destruct (Js.find _ _) as [road|]; [|discriminate]. simpl in H.
    injection H as <-.
    match goal with
    | |- context [addKaryogamyIfNeeded (addMitosisIfNeeded ?x ?p) ?q] =>
        destruct (addMitosisIfNeeded_writes x p) as [m1 ->];
        destruct (addKaryogamyIfNeeded_writes (Upd.mitosis x m1) q) as [m2 ->]
    end.
    split; [eexists; split; reflexivity|].
    exists c. split; [simpl; rewrite Hc; reflexivity|]. intros c' j Hne.
    apply (others_keep_square g c (Z.to_nat pawnIndex) _ c' j Hne).
  - unfold moveFinalGame in H.
    destruct (Js.find (isPlayer id) (Game.players g)) as [player|]; [|discriminate].
    simpl in H. destruct (Player.color player) as [c|] eqn:Hc; [|discriminate]. simpl in H.
    destruct (Js.at_ _ pawnIndex) as [pawn|]; [|discriminate]. simpl in H.
    destruct (getSquareIndex pawn) as [n|]; [|discriminate]. simpl in H.
    destruct (getSquareIndex _) as [n'|]; [|discriminate]. simpl in H.
    destruct (n' - n <? 0); [discriminate|]. injection H as <-.
    match goal with
    | |- context [addKaryogamyIfNeeded ?x ?q] =>
        destruct (addKaryogamyIfNeeded_writes x q) as [m2 ->]
    end.
    split; [eexists; split; reflexivity|].
    exists c. split; [simpl; rewrite Hc; reflexivity|]. intros c' j Hne.
    etransitivity;
      [apply (others_keep_square (removeKaryogamyIfNeeded g pawn) c
                (Z.to_nat pawnIndex) _ c' j Hne)|].
    unfold pawnsOf. rewrite pawns_removeKaryogamy. reflexivity.
Qed.

Lemma quiet_moves_witness :
  (exists m, Board.movePawn (Game.board enteredGame) = Some m ∧ MovePawn.smash m = None)
  ∧ exists c,
      Player.color <$> Js.find (isPlayer "ana") (Game.players (stored rolledWorld))
      = Some (Some c)
      ∧ forall c' j, (c', j) ≠ (c, Z.to_nat 0) ->
          Pawn.squareId <$> ColorSquare.get (Board.pawns (Game.board enteredGame)) c' !! j
          = Pawn.squareId
              <$> ColorSquare.get (Board.pawns (Game.board (stored rolledWorld))) c' !! j.
Proof.
  apply (quiet_moves (stored rolledWorld) enteredGame "ana" 0).
  left. vm_compute. reflexivity.
Defined.

(** * Turn succession *)

(** [getNextPlayer] skips a player when their colour is found among the
    values of the winners slots ([null] counts as found while a slot is
    still [null]). *)
Definition skipped (winners : Winners.t) (p : Player.t) : bool :=
  Js.some (optColorEqb (Player.color p)) (Winners.values winners).

Lemma findIndex_lookup (players : list Player.t) (i : nat) (p : Player.t) :
  NoDup (Player.socketId <$> players) ->
  players !! i = Some p ->
  Js.findIndex (isPlayer (Player.socketId p)) players = Z.of_nat i.
Proof.
  revert i. induction players as [|q players IH]; intros i Hnd Hi; [discriminate|].
  apply NoDup_cons in Hnd as [Hq Hnd]. simpl. unfold isPlayer at 1.
  destruct i as [|i]; simpl in Hi.
  - injection Hi as ->. rewrite String.eqb_refl. reflexivity.
  - destruct (String.eqb_spec (Player.socketId q) (Player.socketId p)) as [Heq|_].
    + exfalso. apply Hq. rewrite Heq. apply list_elem_of_fmap.
      exists p. split; [reflexivity|]. apply list_elem_of_lookup. eauto.
    + rewrite (IH i Hnd Hi). destruct (Z.ltb_spec (Z.of_nat i) 0); lia.
Qed.

(** One probe: from the player in slot [i] of four, the next slot is
    [(i+1) mod 4]. *)
Lemma getNextPlayer_step (depth : nat) (players : list Player.t) (winners : Winners.t)
    (i : nat) (cur next : Player.t) :
  length players = 4%nat ->
  NoDup (Player.socketId <$> players) ->
  players !! i = Some cur ->
  players !! ((i + 1) mod 4)%nat = Some next ->
  getNextPlayer (S depth) (Player.socketId cur) players winners
  = if skipped winners next
    then getNextPlayer depth (Player.socketId next) players winners
    else Returned (Player.socketId next).
Proof.
  intros Hlen Hnd Hi Hnext. simpl.
  rewrite (findIndex_lookup players i cur Hnd Hi).
  assert (i < 4)%nat as Hi4 by (rewrite <- Hlen; eapply lookup_lt_Some, Hi).
  assert (Js.at_ players (if Z.of_nat i <? 3 then Z.of_nat i + 1 else 0) = Some next)
    as ->.
  { destruct (Z.ltb_spec (Z.of_nat i) 3).
    - rewrite at_nat by lia. rewrite <- Hnext. f_equal.
      rewrite Nat.mod_small by lia. lia.
    - rewrite at_nat by lia. rewrite <- Hnext. f_equal.
      assert (i = 3)%nat as -> by lia. reflexivity. }
  reflexivity.
Qed.

(** X16.  [getNextPlayer] among four players with distinct session ids.
    Starting from the player in slot [i], let [s ≥ 1] be such that the
    player in slot [(i+s) mod 4] is not skipped while those in the slots
    [(i+t) mod 4] for [1 ≤ t < s] all are.  Then, granted a call depth of
    at least [s], the recursion returns the session id of the player in
    slot [(i+s) mod 4]: slots are probed in circular order, starting after
    the current one, and the first player who is not skipped is chosen. *)
Theorem getNextPlayer_finds (players : list Player.t) (winners : Winners.t)
    (s i depth : nat) (cur q : Player.t) :
  length players = 4%nat ->
  NoDup (Player.socketId <$> players) ->
  players !! i = Some cur ->
  (1 ≤ s)%nat -> (s ≤ depth)%nat ->
  players !! ((i + s) mod 4)%nat = Some q ->
  skipped winners q = false ->
  (forall t p, (1 ≤ t < s)%nat -> players !! ((i + t) mod 4)%nat = Some p ->
               skipped winners p = true) ->
  getNextPlayer depth (Player.socketId cur) players winners
  = Returned (Player.socketId q).
Proof.
  intros Hlen Hnd. revert i depth cur.
  induction s as [|s IH]; intros i depth cur Hi Hs Hd Hq Hfree Hskip; [lia|].
  destruct depth as [|depth]; [lia|].
  assert (exists next, players !! ((i + 1) mod 4)%nat = Some next) as [next Hnext].
  { apply lookup_lt_is_Some. rewrite Hlen. apply Nat.mod_upper_bound. lia. }
  rewrite (getNextPlayer_step depth players winners i cur next Hlen Hnd Hi Hnext).
  destruct (decide (s = 0)%nat) as [->|Hs0].
  - rewrite Hnext in Hq. injection Hq as ->. rewrite Hfree. reflexivity.
  - rewrite (Hskip 1%nat next) by (lia || exact Hnext).
    apply (IH ((i + 1) mod 4)%nat depth next Hnext); [lia | lia | | exact Hfree |].
    + rewrite <- Hq. f_equal. rewrite Nat.Div0.add_mod_idemp_l. f_equal. lia.
    + intros t p Ht Hp. apply (Hskip (S t) p); [lia|].
      rewrite <- Hp. f_equal. rewrite Nat.Div0.add_mod_idemp_l. f_equal. lia.
Qed.

(** With red and green in the winners slots, the turn goes from ana
    (slot 0) past bob, who plays green, to cy. *)
Lemma getNextPlayer_finds_witness :
  getNextPlayer 4 "ana" (Game.players (stored readyWorld))
                (Winners.mk (Some RED) (Some GREEN) None)
  = Returned "cy".
Proof.
  apply (getNextPlayer_finds (Game.players (stored readyWorld))
           (Winners.mk (Some RED) (Some GREEN) None) 2 0 4
           (Player.mk "ana" (Some RED)) (Player.mk "cy" (Some YELLOW))).
  - reflexivity.
  - apply (proj1 (bool_decide_eq_true _)). vm_compute. reflexivity.
  - reflexivity.
  - lia.
  - lia.
  - reflexivity.
  - reflexivity.
  - intros t p Ht Hp. assert (t = 1)%nat as -> by lia.
    vm_compute in Hp. injection Hp as <-. reflexivity.
Defined.

(** X17.  [getNextPlayer] has no probe limit of its own.  Among four
    players with distinct session ids, when every player is skipped (each
    colour sits in a winners slot, or is [null] while a slot is [null]),
    the recursion called for any of them never returns, whatever call
    depth it is granted. *)
Theorem getNextPlayer_unbounded (players : list Player.t) (winners : Winners.t)
    (depth i : nat) (cur : Player.t) :
  length players = 4%nat ->
  NoDup (Player.socketId <$> players) ->
  players !! i = Some cur ->
  (forall p, p ∈ players -> skipped winners p = true) ->
  getNextPlayer depth (Player.socketId cur) players winners = Unfinished.
Proof.
  intros Hlen Hnd Hi Hall. revert i cur Hi.
  induction depth as [|depth IH]; intros i cur Hi; [reflexivity|].
  assert (exists next, players !! ((i + 1) mod 4)%nat = Some next) as [next Hnext].
  { apply lookup_lt_is_Some. rewrite Hlen. apply Nat.mod_upper_bound. lia. }
  rewrite (getNextPlayer_step depth players winners i cur next Hlen Hnd Hi Hnext).
  rewrite Hall by (apply list_elem_of_lookup; eauto).
  apply (IH _ next Hnext).
Qed.

(** Four players at the table, none of whom has chosen a colour yet. *)
Lemma getNextPlayer_unbounded_witness :
  getNextPlayer 1000 "ana" (Game.players tableGame) (Winners.mk None None None)
  = Unfinished.
Proof.
  apply (getNextPlayer_unbounded (Game.players tableGame) (Winners.mk None None None)
           1000 0 (Player.mk "ana" None)).
  - reflexivity.
  - apply (proj1 (bool_decide_eq_true _)). vm_compute. reflexivity.
  - reflexivity.
  - intros p Hp. vm_compute in Hp.
    repeat (apply elem_of_cons in Hp as [->|Hp]; [reflexivity|]). inversion Hp.
Defined.

(** * Acknowledging a move: the markers *)






(** Red's pawn 0 has just captured green's on [road-22]. *)
Definition capturedGame : Game.t :=
  match moveRoadGame (stored chaseWorld) "ana" 0 with
  | Returned g => g
  | _ => stored chaseWorld
  end.




(** * Acknowledging a move: the turn *)

Lemma clearMutationsMitosis_frame g g1 :
  clearMutationsMitosis g = Returned g1 ->
  sameTable g g1 ∧ Board.pawns (Game.board g1) = Board.pawns (Game.board g).
Proof.
  unfold clearMutationsMitosis, clearMutationsSquares. unfold_outcome. intros H.
  repeat case_match; simplify_eq; (split; [repeat table_step|reflexivity]).
Qed.

Lemma clearMutationsKaryogamy_frame g g1 :
  clearMutationsKaryogamy g = Returned g1 ->
  sameTable g g1 ∧ Board.pawns (Game.board g1) = Board.pawns (Game.board g).
Proof.
  unfold clearMutationsKaryogamy, clearMutationsSquares. unfold_outcome. intros H.
  repeat case_match; simplify_eq; (split; [repeat table_step|reflexivity]).
Qed.

Lemma winners_full (w : Winners.t) :
  Js.every (fun x => negb (optColorEqb x None)) (Winners.values w) = true
  ↔ None ∉ Winners.values w.
Proof.
  destruct w as [[?|] [?|] [?|]]; simpl; split; intros Hx;
    try discriminate; try reflexivity;
    try (rewrite list_elem_of_In; simpl; intuition discriminate).
  all: exfalso; apply Hx; apply list_elem_of_In; simpl; tauto.
Qed.

(** The two last stages of [movedPawn]'s update, named for the proofs:
    the award of a winners slot and the succession of the turn. *)
Definition award (game : Game.t) (color : ColorEnum) : Game.t :=
  if Js.every Pawn.endReached (ColorSquare.get (Board.pawns (Game.board game)) color)
  then Upd.winners game
         (setWinner (Game.winners game) (getWinnerPosition (Game.winners game)) color)
  else game.

Definition succession (depth : nat) (game : Game.t) : Outcome (Game.t * bool) :=
  if Js.every (fun w => negb (optColorEqb w None)) (Winners.values (Game.winners game))
  then Returned (game, true)
  else
    let d := Game.dice game in
    if negb (Dice.result d =? 6) || (Dice.count d >? 2) then
      let game := Upd.dice game (Dice.mk 0 (Dice.result d) (Dice.ableToRoll d)
                                         (Dice.rollAnimation d)) in
      next ← getNextPlayer depth (Game.current game) (Game.players game) (Game.winners game);
      Returned (Upd.current game next, false)
    else Returned (game, false).

Lemma movedPawnGame_stages (depth : nat) (g : Game.t) (id : string) :
  movedPawnGame depth g id
  = (g1 ← clearMutationsMitosis g;
     g2 ← clearMutationsKaryogamy g1;
     let d := Game.dice g2 in
     let g3 := Upd.dice (Upd.movePawn g2 None)
                        (Dice.mk (Dice.count d) (Dice.result d) true (Dice.rollAnimation d)) in
     player ← deref (Js.find (isPlayer id) (Game.players g3));
     color ← deref (Player.color player);
     succession depth (award g3 color)).
Proof. reflexivity. Qed.

(** X19.  The turn after an acknowledged move.  Whenever [movedPawn]'s
    update of the game completes, the last-move descriptor is cleared, the
    dice can be rolled and shows the same result; the game is reported
    terminal exactly when no winners slot is empty; and when it is not
    terminal, the current player keeps the turn with an unchanged roll
    count if the dice shows 6 and the roll count is at most 2, and
    otherwise the roll count is reset to 0 and the turn goes to the player
    [getNextPlayer] returns for the current player, so a third 6 in a row
    passes the turn. *)
Theorem movedPawn_turn (depth : nat) (g g' : Game.t) (id : string) (terminal : bool) :
  movedPawnGame depth g id = Returned (g', terminal) ->
  Board.movePawn (Game.board g') = None
  ∧ Dice.ableToRoll (Game.dice g') = true
  ∧ Dice.result (Game.dice g') = Dice.result (Game.dice g)
  ∧ (terminal = true ↔ None ∉ Winners.values (Game.winners g'))
  ∧ (terminal = false ->
     if bool_decide (Dice.result (Game.dice g) = 6 ∧ Dice.count (Game.dice g) ≤ 2)
     then Game.current g' = Game.current g
          ∧ Dice.count (Game.dice g') = Dice.count (Game.dice g)
     else Dice.count (Game.dice g') = 0
          ∧ getNextPlayer depth (Game.current g) (Game.players g) (Game.winners g')
            = Returned (Game.current g')).
Proof.
  rewrite movedPawnGame_stages. unfold_outcome. intros H.
  destruct (clearMutationsMitosis g) as [g1| |] eqn:H1; try discriminate.
  destruct (clearMutationsKaryogamy g1) as [g2| |] eqn:H2; try discriminate.
  apply clearMutationsMitosis_frame in H1 as [(? & ? & ? & ? & ->) _].
  apply clearMutationsKaryogamy_frame in H2 as [(? & ? & ? & ? & ->) _].
  cbv zeta in H.
  destruct (deref (Js.find _ _)) as [player| |]; try discriminate.
  destruct (deref (Player.color player)) as [c| |]; try discriminate.
  match type of H with succession _ ?x = _ => set (gw := x) in H end.
  assert (Board.movePawn (Game.board gw) = None
          ∧ Game.dice gw = Dice.mk (Dice.count (Game.dice g)) (Dice.result (Game.dice g))
                                   true (Dice.rollAnimation (Game.dice g))
          ∧ Game.current gw = Game.current g
          ∧ Game.players gw = Game.players g) as (Hmp & Hdice & Hcur & Hpl)
    by (unfold gw, award; destruct (Js.every Pawn.endReached _); simpl; auto).
  clearbody gw. pose proof (winners_full (Game.winners gw)) as Hfull.
  unfold succession in H.
  destruct (Js.every _ (Winners.values (Game.winners gw))) eqn:Hall.
  - injection H as <- <-. rewrite Hdice. simpl.
    repeat split; try assumption; try tauto; try discriminate.
  - cbv zeta in H. rewrite Hdice in H. simpl in H. rewrite Hcur, Hpl in H.
    assert (terminal = false ∧
            if bool_decide (Dice.result (Game.dice g) = 6 ∧ Dice.count (Game.dice g) ≤ 2)
            then g' = gw
            else exists next,
                getNextPlayer depth (Game.current g) (Game.players g) (Game.winners gw)
                = Returned next
                ∧ g' = Upd.current
                         (Upd.dice gw (Dice.mk 0 (Dice.result (Game.dice g)) true
                                               (Dice.rollAnimation (Game.dice g)))) next)
      as [-> Hg'].
    { destruct (Z.eqb_spec (Dice.result (Game.dice g)) 6) as [H6|H6];
        destruct (Z.gtb_spec (Dice.count (Game.dice g)) 2) as [Hc|Hc]; simpl in H;
        unfold_outcome;
        try (destruct (getNextPlayer _ _ _ _) as [next| |] eqn:Hn; try discriminate);
        injection H as <- <-; (split; [reflexivity|]);
        first [rewrite bool_decide_eq_true_2 by lia; reflexivity
              |rewrite bool_decide_eq_false_2 by lia; eauto]. }
    destruct (bool_decide _).
    + subst g'. rewrite Hmp, Hdice, Hcur. simpl.
      repeat split; try discriminate; try tauto;
        intros Hx; apply Hfull in Hx; congruence.
    + destruct Hg' as (next & Hn & ->). simpl. rewrite Hmp, Hn.
      repeat split; try discriminate; try tauto;
        intros Hx; apply Hfull in Hx; congruence.
Qed.

(** Red acknowledges the capture: a second 6 in a row keeps the turn. *)
Definition acknowledged : Game.t * bool :=
  match movedPawnGame 8 capturedGame "ana" with
  | Returned x => x
  | _ => (capturedGame, true)
  end.

Lemma movedPawn_turn_witness :
  Board.movePawn (Game.board acknowledged.1) = None
  ∧ Dice.ableToRoll (Game.dice acknowledged.1) = true
  ∧ Dice.result (Game.dice acknowledged.1) = Dice.result (Game.dice capturedGame)
  ∧ (acknowledged.2 = true ↔ None ∉ Winners.values (Game.winners acknowledged.1))
  ∧ (acknowledged.2 = false ->
     if bool_decide (Dice.result (Game.dice capturedGame) = 6
                     ∧ Dice.count (Game.dice capturedGame) ≤ 2)
     then Game.current acknowledged.1 = Game.current capturedGame
          ∧ Dice.count (Game.dice acknowledged.1) = Dice.count (Game.dice capturedGame)
     else Dice.count (Game.dice acknowledged.1) = 0
          ∧ getNextPlayer 8 (Game.current capturedGame) (Game.players capturedGame)
                          (Game.winners acknowledged.1)
            = Returned (Game.current acknowledged.1)).
Proof.
  apply (movedPawn_turn 8 capturedGame acknowledged.1 "ana" acknowledged.2).
  vm_compute. reflexivity.
Defined.

(** * Winners *)

(** The slots are filled in order: no slot is taken after an empty one. *)
Definition inOrder (w : Winners.t) : Prop :=
  (Winners.second w ≠ None -> Winners.first w ≠ None)
  ∧ (Winners.third w ≠ None -> Winners.second w ≠ None).

(** The colours recorded, in slot order. *)
Definition recorded (w : Winners.t) : list ColorEnum :=
  omap id (Winners.values w).

Lemma getWinnerPosition_range (w : Winners.t) :
  None ∈ Winners.values w -> 1 ≤ getWinnerPosition w ≤ 3.
Proof.
  destruct w as [[?|] [?|] [?|]]; intros H; vm_compute; try (split; discriminate).
  exfalso. apply list_elem_of_In in H. simpl in H. intuition discriminate.
Qed.

(** X20.  Winners are recorded in arrival order.  On slots that are
    filled in order and not all taken, writing a colour at
    [getWinnerPosition] takes the first empty slot: the slots stay filled
    in order and the colours recorded are those recorded before followed
    by the new one.  On such slots the position is 1, 2 or 3. *)
Theorem winners_fill_in_order (w : Winners.t) (c : ColorEnum) :
  inOrder w -> None ∈ Winners.values w ->
  inOrder (setWinner w (getWinnerPosition w) c)
  ∧ recorded (setWinner w (getWinnerPosition w) c) = recorded w ++ [c]
  ∧ 1 ≤ getWinnerPosition w ≤ 3.
Proof.
  intros [H1 H2] Hfree. split; [|split; [|apply getWinnerPosition_range, Hfree]].
  - destruct w as [[?|] [?|] [?|]]; simpl in *; split; simpl; try congruence;
      try (exfalso; apply H1; congruence); try (exfalso; apply H2; congruence).
  - destruct w as [[?|] [?|] [?|]]; simpl in *; try reflexivity;
      try (exfalso; apply H1; congruence); try (exfalso; apply H2; congruence).
    exfalso. apply list_elem_of_In in Hfree. simpl in Hfree. intuition discriminate.
Qed.

Lemma winners_fill_in_order_witness :
  inOrder (setWinner (Winners.mk (Some BLUE) None None)
                     (getWinnerPosition (Winners.mk (Some BLUE) None None)) RED)
  ∧ recorded (setWinner (Winners.mk (Some BLUE) None None)
                        (getWinnerPosition (Winners.mk (Some BLUE) None None)) RED)
    = recorded (Winners.mk (Some BLUE) None None) ++ [RED]
  ∧ 1 ≤ getWinnerPosition (Winners.mk (Some BLUE) None None) ≤ 3.
Proof.
  apply (winners_fill_in_order (Winners.mk (Some BLUE) None None) RED).
  - split; simpl; congruence.
  - apply (proj1 (bool_decide_eq_true _)). reflexivity.
Defined.

(** * The roster: creating, joining, choosing a colour, leaving *)

(** X21.  A created game can be found again and cannot be rolled yet.
    After [createGame] for a client with a non-empty game id, from any
    store, [validateGame] accepts the client and hands back the new game:
    the client alone, without colour, as current player, on the generated
    board, with no winner; one [game:updated] event was sent to that
    client; and a roll is rejected because the dice is not rollable. *)
Theorem createGame_then_validate (w : World.t) (client uuid : string) :
  uuid ≠ EmptyString ->
  let game := Game.mk uuid [Player.mk client None] createBoard client
                      (Dice.mk 0 1 false false) (Winners.mk None None None) in
  exists w',
    createGame w client uuid = Returned (NoReply, w')
    ∧ World.emitted w' = World.emitted w ++ [([client], game)]
    ∧ validateGame w' client = Valid game
    ∧ validateDiceRoll w' client = Invalid "Dice cannot be rolled right now".
Proof.
  intros Huuid game. eexists. split; [reflexivity|]. split; [reflexivity|].
  assert (validateGame (setSession (saveGame (gameUpdated w game) game) client uuid) client
          = Valid game) as Hv.
  { unfold validateGame. simpl. rewrite lookup_insert_eq.
    destruct uuid as [|a uuid]; [congruence|]. rewrite lookup_insert_eq.
    simpl. unfold isPlayer. simpl. rewrite String.eqb_refl. reflexivity. }
  split; [exact Hv|].
  unfold validateDiceRoll. fold game. rewrite Hv. simpl.
  rewrite String.eqb_refl. reflexivity.
Qed.

Lemma createGame_then_validate_witness :
  exists w',
    createGame emptyWorld "ana" "g1" = Returned (NoReply, w')
    ∧ World.emitted w'
      = World.emitted emptyWorld
        ++ [(["ana"], Game.mk "g1" [Player.mk "ana" None] createBoard "ana"
                              (Dice.mk 0 1 false false) (Winners.mk None None None))]
    ∧ validateGame w' "ana"
      = Valid (Game.mk "g1" [Player.mk "ana" None] createBoard "ana"
                       (Dice.mk 0 1 false false) (Winners.mk None None None))
    ∧ validateDiceRoll w' "ana" = Invalid "Dice cannot be rolled right now".
Proof.
  apply (createGame_then_validate emptyWorld "ana" "g1"). discriminate.
Defined.

(** X22.  Joining keeps the roster sound.  When [joinGame] accepts the
    request for a stored game, that game had fewer than 4 players and did
    not list the requester; afterwards the store holds, under the game's
    own id, the same game with the requester appended without colour, so
    it has at most 4 players and its session ids stay pairwise distinct if
    they were; and the requester's session now leads to the requested game
    id. *)
Theorem joinGame_roster (w w' : World.t) (id gameId : string) (game : Game.t) :
  World.games w !! gameId = Some game ->
  joinGame w id gameId = Returned (NoReply, w') ->
  (length (Game.players game) < 4)%nat
  ∧ (id ∉ (Player.socketId <$> Game.players game))
  ∧ World.games w' !! Game.id game
    = Some (Upd.players game (Game.players game ++ [Player.mk id None]))
  ∧ World.sessions w' !! id = Some gameId
  ∧ (NoDup (Player.socketId <$> Game.players game) ->
     NoDup (Player.socketId <$> (Game.players game ++ [Player.mk id None]))).
Proof.
  intros Hgame. unfold joinGame. rewrite Hgame.
  destruct (Nat.leb_spec 4 (length (Game.players game))) as [|Hlen]; [discriminate|].
  destruct (Js.some (isPlayer id) (Game.players game)) eqn:Hin; [discriminate|].
  intros [= <-].
  assert (id ∉ (Player.socketId <$> Game.players game)) as Hid.
  { intros (p & -> & Hp)%list_elem_of_fmap.
    assert (Js.some (isPlayer (Player.socketId p)) (Game.players game) = true);
      [|congruence].
    apply existsb_exists. exists p. split; [apply list_elem_of_In, Hp|].
    apply String.eqb_refl. }
  split; [exact Hlen|]. split; [exact Hid|]. split; [|split].
  - simpl. apply lookup_insert_eq.
  - simpl. apply lookup_insert_eq.
  - intros Hnd. rewrite fmap_app. apply NoDup_app. split; [exact Hnd|].
    split; [|apply NoDup_singleton].
    intros x Hx Hx'. simpl in Hx'. apply list_elem_of_singleton in Hx'. congruence.
Qed.

Lemma joinGame_roster_witness :
  (length (Game.players (stored soloWorld)) < 4)%nat
  ∧ ("bob" ∉ (Player.socketId <$> Game.players (stored soloWorld)))
  ∧ World.games (play soloWorld [("bob", JoinGame "g1")]) !! Game.id (stored soloWorld)
    = Some (Upd.players (stored soloWorld)
                        (Game.players (stored soloWorld) ++ [Player.mk "bob" None]))
  ∧ World.sessions (play soloWorld [("bob", JoinGame "g1")]) !! "bob" = Some "g1"
  ∧ (NoDup (Player.socketId <$> Game.players (stored soloWorld)) ->
     NoDup (Player.socketId
              <$> (Game.players (stored soloWorld) ++ [Player.mk "bob" None]))).
Proof.
  apply (joinGame_roster soloWorld (play soloWorld [("bob", JoinGame "g1")])
           "bob" "g1" (stored soloWorld)); vm_compute; reflexivity.
Defined.

(** The colours chosen so far, in roster order. *)
Definition chosen (players : list Player.t) : list ColorEnum :=
  omap Player.color players.

Definition withColor (color : option ColorEnum) (p : Player.t) : Player.t :=
  Player.mk (Player.socketId p) color.

Lemma first_withColor_ids (id : string) (color : option ColorEnum) (ps : list Player.t) :
  Player.socketId <$> Upd.first (isPlayer id) (withColor color) ps
  = Player.socketId <$> ps.
Proof.
  induction ps as [|p ps IH]; [reflexivity|]. simpl.
  destruct (isPlayer id p); simpl; [reflexivity|]. f_equal. exact IH.
Qed.

Lemma first_withColor_find (id : string) (color : option ColorEnum) (ps : list Player.t) :
  Js.find (isPlayer id) (Upd.first (isPlayer id) (withColor color) ps)
  = withColor color <$> Js.find (isPlayer id) ps.
Proof.
  induction ps as [|p ps IH]; [reflexivity|]. simpl.
  destruct (isPlayer id p) eqn:Hp; simpl.
  - unfold isPlayer in *. simpl. rewrite Hp. reflexivity.
  - rewrite Hp. exact IH.
Qed.

Lemma first_withColor_chosen (id : string) (c : ColorEnum) (ps : list Player.t) (x : ColorEnum) :
  x ∈ chosen (Upd.first (isPlayer id) (withColor (Some c)) ps) ->
  x = c ∨ x ∈ chosen ps.
Proof.
  unfold chosen. induction ps as [|p ps IH]; simpl; [intros H; inversion H|].
  destruct (isPlayer id p); simpl.
  - intros [->|H]%elem_of_cons; [left; reflexivity|].
    right. destruct (Player.color p); [right|]; exact H.
  - destruct (Player.color p) as [y|]; simpl.
    + intros [->|H]%elem_of_cons; [right; left|]. destruct (IH H); [left|right; right]; auto.
    + exact IH.
Qed.

Lemma first_withColor_NoDup (id : string) (c : ColorEnum) (ps : list Player.t) :
  c ∉ chosen ps -> NoDup (chosen ps) ->
  NoDup (chosen (Upd.first (isPlayer id) (withColor (Some c)) ps)).
Proof.
  unfold chosen. induction ps as [|p ps IH]; simpl; [auto|].
  destruct (isPlayer id p); simpl.
  - destruct (Player.color p) as [y|]; simpl; intros Hc Hnd.
    + apply NoDup_cons in Hnd as [_ Hnd]. apply NoDup_cons. split; [|exact Hnd].
      intros H. apply Hc. right. exact H.
    + apply NoDup_cons. auto.
  - destruct (Player.color p) as [y|]; simpl; intros Hc Hnd; [|auto].
    apply NoDup_cons in Hnd as [Hy Hnd]. apply NoDup_cons. split.
    + intros [->|H]%first_withColor_chosen; [apply Hc; left|]; auto.
    + apply IH; [|exact Hnd]. intros H. apply Hc. right. exact H.
Qed.

(** X23.  Choosing a colour.  When [validateChoosenColor] accepts colour
    [c] for a requester, no player of the game holds [c]; after
    [chooseColor]'s update the roster has the same session ids in the same
    order, the requester's entry holds [c], the chosen colours stay
    pairwise distinct if they were, and the dice is rollable exactly when
    the game has 4 players, whether or not the other players have chosen
    a colour. *)
Theorem chooseColor_roster (w : World.t) (id : string) (c : ColorEnum) (game : Game.t) :
  validateChoosenColor w id (Some c) = Valid game ->
  let game' := chooseColorGame game id (Some c) in
  (c ∉ chosen (Game.players game))
  ∧ Player.socketId <$> Game.players game' = Player.socketId <$> Game.players game
  ∧ Player.color <$> Js.find (isPlayer id) (Game.players game') = Some (Some c)
  ∧ (NoDup (chosen (Game.players game)) -> NoDup (chosen (Game.players game')))
  ∧ Dice.ableToRoll (Game.dice game')
    = bool_decide (length (Game.players game) = 4%nat).
Proof.
  unfold validateChoosenColor. intros H. validated H.
  destruct (Js.some _ (Game.players g)) eqn:Htaken; [discriminate|].
  injection H as <-.
  assert (c ∉ chosen (Game.players g)) as Hfree.
  { unfold chosen. intros (p & Hp & Hc)%list_elem_of_omap.
    assert (Js.some (fun p => optColorEqb (Player.color p) (Some c)) (Game.players g)
            = true); [|congruence].
    apply existsb_exists. exists p. split; [apply list_elem_of_In, Hp|].
    apply bool_decide_eq_true. exact Hc. }
  apply validateGame_stored in Hv as (gameId & player & _ & _ & _ & Hfind).
  change (Game.players (chooseColorGame g id (Some c)))
    with (Upd.first (isPlayer id) (withColor (Some c)) (Game.players g)).
  split; [exact Hfree|]. split; [apply first_withColor_ids|].
  split; [rewrite first_withColor_find, Hfind; reflexivity|].
  split; [apply first_withColor_NoDup, Hfree|].
  simpl. replace (length (Upd.first (isPlayer id)
                             (fun p => Player.mk (Player.socketId p) (Some c))
                             (Game.players g)))
    with (length (Game.players g))
    by (rewrite <- (length_fmap Player.socketId (Upd.first _ _ _));
        change (fun p => Player.mk (Player.socketId p) (Some c)) with (withColor (Some c));
        rewrite first_withColor_ids; symmetry; apply length_fmap).
  destruct (Nat.eqb_spec (length (Game.players g)) 4).
  - rewrite bool_decide_eq_true_2; auto.
  - rewrite bool_decide_eq_false_2; auto.
Qed.

(** Bob is the first of the four at the table to choose a colour. *)
Lemma chooseColor_roster_witness :
  (GREEN ∉ chosen (Game.players tableGame))
  ∧ Player.socketId <$> Game.players (chooseColorGame tableGame "bob" (Some GREEN))
    = Player.socketId <$> Game.players tableGame
  ∧ Player.color
      <$> Js.find (isPlayer "bob") (Game.players (chooseColorGame tableGame "bob" (Some GREEN)))
    = Some (Some GREEN)
  ∧ (NoDup (chosen (Game.players tableGame)) ->
     NoDup (chosen (Game.players (chooseColorGame tableGame "bob" (Some GREEN)))))
  ∧ Dice.ableToRoll (Game.dice (chooseColorGame tableGame "bob" (Some GREEN)))
    = bool_decide (length (Game.players tableGame) = 4%nat).
Proof.
  apply (chooseColor_roster tableWorld "bob" GREEN tableGame).
  vm_compute. reflexivity.
Defined.



(** * The dice *)

(** Every game is stored under its own id. *)
Definition keyed (w : World.t) : Prop :=
  forall k g, World.games w !! k = Some g -> Game.id g = k.

(** A game accepted for a requester and saved again with the same id,
    players and winners is accepted again. *)
Lemma validateGame_after_save (w : World.t) (id : string) (g g' : Game.t) :
  keyed w ->
  validateGame w id = Valid g ->
  Game.id g' = Game.id g -> Game.players g' = Game.players g ->
  Game.winners g' = Game.winners g ->
  validateGame (saveGame (gameUpdated w g') g') id = Valid g'.
Proof.
  intros Hkeyed Hv Hid Hpl Hw.
  pose proof (validateGame_stored w id g Hv) as (gameId & player & Hs & Hne & Hg & _).
  apply Hkeyed in Hg as Hk. unfold validateGame in *. simpl. rewrite Hs in *.
  destruct gameId as [|a gameId]; [congruence|]. rewrite Hg in Hv.
  rewrite Hid, Hk, lookup_insert_eq, Hpl, Hw. simpl in Hv.
  repeat case_match; congruence.
Qed.

(** X25.  One roll at a time.  On a store where every game sits under its
    own id, once [rollDice] has accepted a roll from a player, the stored
    game shows that roll with the roll count increased by one, the dice
    is no longer rollable and its animation is on; a second [rollDice]
    from the same player is rejected with "Dice cannot be rolled right
    now" and changes nothing, while [validateDiceResult] accepts the
    player. *)
Theorem one_roll_at_a_time (w w' : World.t) (id : string) (roll roll' : Z) :
  keyed w ->
  rollDice w id roll = Returned (NoReply, w') ->
  exists game,
    validateDiceRoll w id = Valid game
    ∧ validateDiceResult w' id
      = Valid (Upd.dice game (Dice.mk (Dice.count (Game.dice game) + 1) roll false true))
    ∧ rollDice w' id roll'
      = Returned (ErrorReply "Dice cannot be rolled right now", w').
Proof.
  intros Hkeyed. unfold rollDice.
  destruct (validateDiceRoll w id) as [game|] eqn:Hroll; [|discriminate].
  intros [= <-]. exists game. split; [reflexivity|].
  destruct (validateDiceRoll_Valid w id game) as (Hv & Hcur & Hlen); [congruence|].
  assert (validateGame (saveGame (gameUpdated w (rollDiceGame game roll))
                                 (rollDiceGame game roll)) id
          = Valid (rollDiceGame game roll)) as Hv'
    by (apply (validateGame_after_save w id game); auto).
  split.
  - unfold validateDiceResult. rewrite Hv'. simpl.
    rewrite Hcur, String.eqb_refl, Hlen. reflexivity.
  - unfold validateDiceRoll. rewrite Hv'. simpl.
    rewrite Hcur, String.eqb_refl. reflexivity.
Qed.

Lemma keyed_readyWorld : keyed readyWorld.
Proof.
  intros k g Hg. destruct (decide (k = "g1")) as [->|Hne].
  - vm_compute in Hg. injection Hg as <-. reflexivity.
  - assert (World.games readyWorld !! k = None) as Hnone; [|congruence].
    assert (World.games readyWorld = {["g1" := stored readyWorld]}) as ->
      by (vm_compute; reflexivity).
    apply lookup_singleton_ne. congruence.
Qed.

Lemma one_roll_at_a_time_witness :
  exists game,
    validateDiceRoll readyWorld "ana" = Valid game
    ∧ validateDiceResult (play readyWorld [("ana", RollDice 6)]) "ana"
      = Valid (Upd.dice game (Dice.mk (Dice.count (Game.dice game) + 1) 6 false true))
    ∧ rollDice (play readyWorld [("ana", RollDice 6)]) "ana" 4
      = Returned (ErrorReply "Dice cannot be rolled right now",
                  play readyWorld [("ana", RollDice 6)]).
Proof.
  apply (one_roll_at_a_time readyWorld (play readyWorld [("ana", RollDice 6)]) "ana" 6 4).
  - exact keyed_readyWorld.
  - vm_compute. reflexivity.
Defined.

(** * The roll result: which pawns may move *)

Definition classifyCheck (zone : string) (makeId : Z -> string) (n : Z) : bool :=
  bool_decide ((Js.includes "initial" (makeId n), Js.includes "final" (makeId n))
               = (String.eqb zone "initial", String.eqb zone "final")).

Lemma road_ids_classified :
  forallb (classifyCheck "road" roadSquareId) (forRange 0 51) = true.
Proof. vm_compute. reflexivity. Qed.

Lemma final_ids_classified :
  forallb (fun c => forallb (classifyCheck "final" (finalId c)) (forRange 0 5)) colors = true.
Proof. vm_compute. reflexivity. Qed.

Lemma initial_ids_classified (c : ColorEnum) (n : Z) :
  Js.includes "initial" (initialId c n) = true.
Proof. reflexivity. Qed.

(** X26.  What [rollResult] offers a pawn, by where it stands.  A pawn on
    an initial cell is offered the entry move exactly when the dice shows
    1 or 6; a pawn on lane cell [final-c-n] ([0 ≤ n ≤ 5]) is offered the
    home-lane move exactly when [n] is not 5 and the result [d] does not
    pass cell 5 ([n + d ≤ 5]); a pawn on a ring cell [road-n]
    ([0 ≤ n ≤ 51]) is always offered the road move.  A pawn that is
    offered nothing keeps whatever pending action it had. *)
Theorem rollResult_offers (d : Z) (pawn : Pawn.t) (c : ColorEnum) (n : Z) :
  (Pawn.squareId pawn = initialId c n ->
   rollResultPawn d pawn
   = if bool_decide (d = 1 ∨ d = 6)
     then Pawn.withAction pawn (Some (MOVE_INITIAL, Pawn.index pawn)) else pawn)
  ∧ (Pawn.squareId pawn = finalId c n -> 0 ≤ n ≤ 5 ->
     rollResultPawn d pawn
     = if bool_decide (n ≠ 5 ∧ n + d ≤ 5)
       then Pawn.withAction pawn (Some (MOVE_FINAL, Pawn.index pawn)) else pawn)
  ∧ (Pawn.squareId pawn = roadSquareId n -> 0 ≤ n ≤ 51 ->
     rollResultPawn d pawn = Pawn.withAction pawn (Some (MOVE_ROAD, Pawn.index pawn))).
Proof.
  split; [|split].
  - intros Hsq. unfold rollResultPawn. rewrite Hsq, initial_ids_classified.
    destruct (Z.eqb_spec d 1), (Z.eqb_spec d 6); simpl;
      first [rewrite bool_decide_eq_true_2 by lia | rewrite bool_decide_eq_false_2 by lia];
      reflexivity.
  - intros Hsq Hn. unfold rollResultPawn.
    rewrite (getSquareIndex_finalId pawn c n) by (lia || auto). rewrite Hsq.
    pose proof (forall_colors _ final_ids_classified c) as H. cbv beta in H.
    apply (forallb_forRange _ 0 5 H n) in Hn as Hc.
    apply bool_decide_eq_true in Hc.
    pose proof (f_equal fst Hc) as Hi. pose proof (f_equal snd Hc) as Hf.
    simpl in Hi, Hf. rewrite Hi, Hf. simpl.
    destruct (Z.eqb_spec n 5); [rewrite bool_decide_eq_false_2 by lia; reflexivity|].
    destruct (Z.leb_spec d (5 - n));
      first [rewrite bool_decide_eq_true_2 by lia | rewrite bool_decide_eq_false_2 by lia];
      reflexivity.
  - intros Hsq Hn. unfold rollResultPawn. rewrite Hsq.
    apply (forallb_forRange _ 0 51 road_ids_classified n) in Hn as Hc.
    apply bool_decide_eq_true in Hc.
    pose proof (f_equal fst Hc) as Hi. pose proof (f_equal snd Hc) as Hf.
    simpl in Hi, Hf. rewrite Hi, Hf. reflexivity.
Qed.

Lemma rollResult_offers_witness :
  rollResultPawn 2 (Pawn.mk BLUE 1 (finalId BLUE 3) false None)
  = if bool_decide (3 ≠ 5 ∧ 3 + 2 ≤ 5)
    then Pawn.withAction (Pawn.mk BLUE 1 (finalId BLUE 3) false None) (Some (MOVE_FINAL, 1))
    else Pawn.mk BLUE 1 (finalId BLUE 3) false None.
Proof.
  apply (proj1 (proj2 (rollResult_offers 2 (Pawn.mk BLUE 1 (finalId BLUE 3) false None)
                         BLUE 3)));
    [reflexivity | lia].
Defined.

(** * The store: games sit under their own id *)

Lemma keyed_saveGame w g : keyed w -> keyed (saveGame w g).
Proof.
  intros Hw k g' Hk. simpl in Hk. destruct (decide (Game.id g = k)) as [<-|Hne].
  - rewrite lookup_insert_eq in Hk. congruence.
  - rewrite lookup_insert_ne in Hk by exact Hne. apply Hw, Hk.
Qed.

Lemma keyed_delGame w k : keyed w -> keyed (delGame w k).
Proof.
  intros Hw k' g Hk. simpl in Hk. apply lookup_delete_Some in Hk as [_ Hk].
  apply Hw, Hk.
Qed.

Lemma keyed_same_games w w' : World.games w' = World.games w -> keyed w -> keyed w'.
Proof. intros Heq Hw k g Hk. rewrite Heq in Hk. apply Hw, Hk. Qed.

Lemma keyed_delSessions w ids : keyed w -> keyed (foldl delSession w ids).
Proof.
  revert w. induction ids as [|i ids IH]; intros w Hw; [exact Hw|].
  simpl. apply IH. apply (keyed_same_games w); [reflexivity|exact Hw].
Qed.

Create HintDb keyed discriminated.
#[global] Hint Resolve keyed_saveGame keyed_delGame keyed_delSessions : keyed.
#[global] Hint Extern 1 (keyed (gameUpdated ?w _)) =>
  apply (keyed_same_games w); [reflexivity|] : keyed.
#[global] Hint Extern 1 (keyed (setSession ?w _ _)) =>
  apply (keyed_same_games w); [reflexivity|] : keyed.
#[global] Hint Extern 1 (keyed (delSession ?w _)) =>
  apply (keyed_same_games w); [reflexivity|] : keyed.

(** X27.  Every handler keeps the store keyed: if each stored game sits
    under its own id before an inbound event is handled, or before a
    session disconnects, the same holds afterwards.  Games are only ever
    written by [saveGame], under [game.id]. *)
Theorem handlers_keep_store_keyed (depth : nat) (w : World.t) (id : string) (m : Inbound) :
  keyed w ->
  keyed (handleDisconnect w id)
  ∧ forall reply w', handle depth w id m = Returned (reply, w') -> keyed w'.
Proof.
  intros Hw. split.
  - unfold handleDisconnect. repeat case_match; auto 6 with keyed.
  - intros reply w'. destruct m; simpl;
      [unfold createGame | unfold joinGame | unfold chooseColor | unfold rollDice
      | unfold rollResult | unfold moveInitial | unfold moveFinal | unfold moveRoad
      | unfold movedPawn];
      unfold_outcome; intros H; repeat case_match; simplify_eq; auto 8 with keyed.
Qed.

Lemma keyed_emptyWorld : keyed emptyWorld.
Proof. intros k g Hk. simpl in Hk. rewrite lookup_empty in Hk. discriminate. Qed.

Lemma handlers_keep_store_keyed_witness :
  keyed (handleDisconnect emptyWorld "ana")
  ∧ forall reply w',
      handle 8 emptyWorld "ana" (CreateGame "g1") = Returned (reply, w') -> keyed w'.
Proof.
  apply (handlers_keep_store_keyed 8 emptyWorld "ana" (CreateGame "g1")).
  exact keyed_emptyWorld.
Defined.

(** * Grouping markers: one quadrant per colour *)
















(** * Games do not interfere *)









(** * Grouping markers: adding twice *)

(** A pawn has a mitosis marker in [ms]. *)
Definition marked (ms : list MitosisIdentifier.t) (q : Pawn.t) : Prop :=
  exists m, m ∈ ms ∧ MitosisIdentifier.color m = Pawn.color q
            ∧ MitosisIdentifier.index m = Pawn.index q.

Lemma addMitosisColor_incl P ms c x : x ∈ ms -> x ∈ addMitosisColor P ms c.
Proof.
  intros Hx. unfold addMitosisColor.
  destruct (filter _ P); [exact Hx|]. apply elem_of_app. left. exact Hx.
Qed.

Lemma addMitosisColors_incl P cs ms x :
  x ∈ ms -> x ∈ foldl (addMitosisColor P) ms cs.
Proof.
  revert ms. induction cs as [|c cs IH]; intros ms Hx; [exact Hx|].
  simpl. apply IH, addMitosisColor_incl, Hx.
Qed.

Lemma marked_some (ms : list MitosisIdentifier.t) (q : Pawn.t) :
  Js.some (fun m => MitosisIdentifier.index m =? Pawn.index q)
          (filter (fun m => MitosisIdentifier.color m = Pawn.color q) ms) = true
  ↔ marked ms q.
Proof.
  unfold Js.some, marked. rewrite existsb_exists. split.
  - intros (m & Hm & Hi). apply list_elem_of_In, list_elem_of_filter in Hm as [Hc Hm].
    exists m. split; [exact Hm|]. split; [exact Hc|]. apply Z.eqb_eq, Hi.
  - intros (m & Hm & Hc & Hi). exists m. split.
    + apply list_elem_of_In, list_elem_of_filter. auto.
    + apply Z.eqb_eq, Hi.
Qed.

Lemma addMitosisColor_marks P ms (q : Pawn.t) :
  q ∈ P -> marked (addMitosisColor P ms (Pawn.color q)) q.
Proof.
  intros Hq. unfold addMitosisColor.
  assert (q ∈ filter (fun p => Pawn.color p = Pawn.color q) P) as Hq'
    by (apply list_elem_of_filter; auto).
  destruct (filter (fun p => Pawn.color p = Pawn.color q) P) as [|p0 ps] eqn:Hps;
    [inversion Hq'|].
  rewrite <- Hps in *. clear p0 ps Hps.
  destruct (Js.some (fun m => MitosisIdentifier.index m =? Pawn.index q)
              (filter (fun m => MitosisIdentifier.color m = Pawn.color q) ms)) eqn:Hs.
  - apply marked_some in Hs as (m & Hm & Hc & Hi).
    exists m. split; [apply elem_of_app; left; exact Hm|]. auto.
  - eexists. split; [apply elem_of_app; right|].
    + apply list_elem_of_fmap. exists q. split; [reflexivity|].
      apply list_elem_of_filter. split; [|exact Hq']. rewrite Hs. exact I.
    + split; reflexivity.
Qed.

Lemma addMitosisColors_mark P cs ms (q : Pawn.t) :
  q ∈ P -> Pawn.color q ∈ cs -> marked (foldl (addMitosisColor P) ms cs) q.
Proof.
  intros Hq. revert ms. induction cs as [|c cs IH]; intros ms Hc; [inversion Hc|].
  simpl. destruct (decide (Pawn.color q = c)) as [<-|Hne].
  - destruct (addMitosisColor_marks P ms q Hq) as (m & Hm & H1 & H2).
    exists m. split; [apply addMitosisColors_incl, Hm|]. auto.
  - apply IH. apply elem_of_cons in Hc as [Hc|Hc]; [congruence|exact Hc].
Qed.

Lemma filter_none {A} (P : A -> Prop) `{forall x, Decision (P x)} (l : list A) :
  (forall x, x ∈ l -> ¬ P x) -> filter P l = [].
Proof.
  induction l as [|x l IH]; intros Hl; [reflexivity|].
  rewrite filter_cons, decide_False by (apply Hl; left).
  apply IH. intros y Hy. apply Hl. right. exact Hy.
Qed.

Lemma addMitosisColor_marked P ms c :
  (forall q, q ∈ P -> marked ms q) -> addMitosisColor P ms c = ms.
Proof.
  intros Hall. unfold addMitosisColor.
  destruct (filter (fun p => Pawn.color p = c) P) as [|p0 ps] eqn:Hps; [reflexivity|].
  rewrite <- Hps. clear p0 ps Hps.
  rewrite filter_none; [apply app_nil_r|].
  intros q Hq Hnot. apply list_elem_of_filter in Hq as [Hc Hq].
  apply Is_true_true in Hnot. apply negb_true_iff in Hnot.
  rewrite <- Hc in Hnot.
  assert (Js.some (fun m => MitosisIdentifier.index m =? Pawn.index q)
            (filter (fun m => MitosisIdentifier.color m = Pawn.color q) ms) = true);
    [|congruence].
  apply marked_some, Hall, Hq.
Qed.

Lemma addMitosisColors_marked P cs ms :
  (forall q, q ∈ P -> marked ms q) -> foldl (addMitosisColor P) ms cs = ms.
Proof.
  intros Hall. induction cs as [|c cs IH]; [reflexivity|].
  simpl. rewrite addMitosisColor_marked by exact Hall. exact IH.
Qed.

Lemma elem_of_colors (c : ColorEnum) : c ∈ colors.
Proof. destruct c; apply list_elem_of_In; simpl; tauto. Qed.

(** At least two pawns, not all of the colour of the first. *)
Definition mixed (P : list Pawn.t) : bool :=
  match P with
  | [] | [_] => false
  | first :: _ => negb (Js.every (fun p => colorEqb (Pawn.color p) (Pawn.color first)) P)
  end.

Lemma addMitosisIfNeeded_mixed (g : Game.t) (pawn : Pawn.t) :
  addMitosisIfNeeded g pawn
  = if mixed (getPawnsOnRoad g (Pawn.squareId pawn))
    then Upd.mitosis g
           (<[Pawn.squareId pawn :=
                foldl (addMitosisColor (getPawnsOnRoad g (Pawn.squareId pawn)))
                      (default [] (Board.mitosis (Game.board g) !! Pawn.squareId pawn))
                      colors]> (Board.mitosis (Game.board g)))
    else g.
Proof.
  unfold addMitosisIfNeeded, mixed.
  destruct (getPawnsOnRoad g (Pawn.squareId pawn)) as [|p0 [|p1 ps]]; try reflexivity.
  destruct (Js.every _ _); reflexivity.
Qed.

Lemma mixed_two_colours (P : list Pawn.t) (q1 q2 : Pawn.t) :
  q1 ∈ P -> q2 ∈ P -> Pawn.color q1 ≠ Pawn.color q2 -> mixed P = true.
Proof.
  intros H1 H2 Hne. unfold mixed. destruct P as [|p0 [|p1 ps]].
  - inversion H1.
  - apply list_elem_of_singleton in H1, H2. congruence.
  - apply negb_true_iff. apply not_true_is_false. intros Hevery.
    unfold Js.every in Hevery. rewrite forallb_forall in Hevery.
    apply list_elem_of_In, Hevery, bool_decide_eq_true in H1.
    apply list_elem_of_In, Hevery, bool_decide_eq_true in H2. congruence.
Qed.

(** X30.  Marking a square is complete and idempotent.  If two pawns of
    different colours stand on the moving pawn's square, then after
    [addMitosisIfNeeded] that square has a marker list in which every
    pawn standing on it has a marker with its colour and index; and in
    every case, running [addMitosisIfNeeded] a second time changes
    nothing. *)
Theorem addMitosis_marks_once (g : Game.t) (pawn : Pawn.t) :
  addMitosisIfNeeded (addMitosisIfNeeded g pawn) pawn = addMitosisIfNeeded g pawn
  ∧ forall q1 q2,
      q1 ∈ getPawnsOnRoad g (Pawn.squareId pawn) ->
      q2 ∈ getPawnsOnRoad g (Pawn.squareId pawn) ->
      Pawn.color q1 ≠ Pawn.color q2 ->
      exists ms,
        Board.mitosis (Game.board (addMitosisIfNeeded g pawn)) !! Pawn.squareId pawn
        = Some ms
        ∧ forall q, q ∈ getPawnsOnRoad g (Pawn.squareId pawn) ->
            exists m, m ∈ ms ∧ MitosisIdentifier.color m = Pawn.color q
                      ∧ MitosisIdentifier.index m = Pawn.index q.
Proof.
  assert (forall q, q ∈ getPawnsOnRoad g (Pawn.squareId pawn) ->
            marked (foldl (addMitosisColor (getPawnsOnRoad g (Pawn.squareId pawn)))
                          (default [] (Board.mitosis (Game.board g) !! Pawn.squareId pawn))
                          colors) q) as Hmarked
    by (intros q Hq; apply addMitosisColors_mark; [exact Hq|apply elem_of_colors]).
  split.
  - rewrite (addMitosisIfNeeded_mixed g pawn).
    destruct (mixed (getPawnsOnRoad g (Pawn.squareId pawn))) eqn:Hmixed.
    + rewrite addMitosisIfNeeded_mixed.
      change (getPawnsOnRoad (Upd.mitosis g _) (Pawn.squareId pawn))
        with (getPawnsOnRoad g (Pawn.squareId pawn)).
      rewrite Hmixed.
      cbn [Game.board Board.mitosis Upd.mitosis Upd.board Upd.boardMitosis].
      rewrite lookup_insert_eq. cbn [default].
      set (ms1 := foldl _ (default [] _) colors) in *.
      rewrite (addMitosisColors_marked _ colors ms1) by exact Hmarked.
      rewrite insert_insert_eq. reflexivity.
    + rewrite addMitosisIfNeeded_mixed, Hmixed. reflexivity.
  - intros q1 q2 Hq1 Hq2 Hne. eexists. split; [|exact Hmarked].
    rewrite addMitosisIfNeeded_mixed, (mixed_two_colours _ q1 q2 Hq1 Hq2 Hne).
    cbn [Game.board Board.mitosis Upd.mitosis Upd.board Upd.boardMitosis].
    apply lookup_insert_eq.
Qed.

(** Red's pawn has just landed on green's on [road-22]. *)
Lemma addMitosis_marks_once_witness :
  exists ms,
    Board.mitosis (Game.board (addMitosisIfNeeded chaseRelocated.1.1 chaseRelocated.2))
      !! Pawn.squareId chaseRelocated.2 = Some ms
    ∧ forall q, q ∈ getPawnsOnRoad chaseRelocated.1.1 (Pawn.squareId chaseRelocated.2) ->
        exists m, m ∈ ms ∧ MitosisIdentifier.color m = Pawn.color q
                  ∧ MitosisIdentifier.index m = Pawn.index q.
Proof.
  apply (proj2 (addMitosis_marks_once chaseRelocated.1.1 chaseRelocated.2)
           (Pawn.mk RED 0 "road-22" false None) (Pawn.mk GREEN 0 "road-22" false None)).
  - apply (proj1 (bool_decide_eq_true _)). vm_compute. reflexivity.
  - apply (proj1 (bool_decide_eq_true _)). vm_compute. reflexivity.
  - discriminate.
Defined.
